(** * Trend analysis engine of the download charts

    Shallow embedding of the statistics utilities of the chart helpers
    ([sum], [clamp], [quantile], [winsorize], [computeLineChartAnalysis]).

    The program text is embedded once, over an interface [Number] of the
    operations it performs on JavaScript numbers.  Three instances follow:

    - [binary64]: IEEE 754 double precision, what the engine executes
      (kernel primitive floats; [Math.floor]/[Math.ceil] are computed on the
      exact mantissa/exponent decomposition);
    - [exact]: the real numbers, the idealisation in which the algebra of
      least squares is valid;
    - [checked]: the real numbers with a non-number, which records a
      division by 0, the square root of a negative number or an array read
      out of range.

    Statements that only depend on control flow are proved for every
    instance; concrete series are evaluated in binary64. *)

From Stdlib Require Import List Bool Arith ZArith Lia Sorted Permutation.
From Stdlib Require Import Reals Lra Psatz.
From Stdlib Require Import PrimFloat SpecFloat FloatOps FloatAxioms Uint63.
From Stdlib Require String Ascii.
Import ListNotations.

Local Close Scope R_scope.
Local Open Scope nat_scope.
Set Warnings "-inexact-float".

(** ** JavaScript numbers, as an interface *)

Class Number (num : Type) : Type := {
  zero : num;
  one : num;
  add : num -> num -> num;
  sub : num -> num -> num;
  mul : num -> num -> num;
  div : num -> num -> num;
  sqrt : num -> num;                (* Math.sqrt *)
  abs : num -> num;                 (* Math.abs *)
  floor : num -> num;               (* Math.floor *)
  ceil : num -> num;                (* Math.ceil *)
  eqb : num -> num -> bool;         (* === on numbers *)
  ltb : num -> num -> bool;         (* < *)
  leb : num -> num -> bool;         (* <= *)
  of_nat : nat -> num;              (* array lengths and indices *)
  lit : positive -> positive -> num;(* decimal literal p/q, e.g. 0.05 = 5/100 *)
  to_index : num -> option nat;     (* the array slot a number key designates *)
  undefined_arith : num             (* arithmetic on [undefined] *)
}.

Declare Scope num_scope.
Delimit Scope num_scope with num.
Infix "+" := add : num_scope.
Infix "-" := sub : num_scope.
Infix "*" := mul : num_scope.
Infix "/" := div : num_scope.
Infix "=?" := eqb : num_scope.
Infix "<?" := ltb : num_scope.
Infix "<=?" := leb : num_scope.

Definition gtb {num} `{Number num} (a b : num) : bool := ltb b a.
Definition geb {num} `{Number num} (a b : num) : bool := leb b a.
Infix ">?" := gtb : num_scope.
Infix ">=?" := geb : num_scope.

(** ** IEEE 754 binary64 *)

Module Binary64.

Definition of_Z (z : Z) : float :=
  match z with
  | Z0 => PrimFloat.zero
  | Zpos p => PrimFloat.of_uint63 (Uint63.of_Z (Zpos p))
  | Zneg p => PrimFloat.opp (PrimFloat.of_uint63 (Uint63.of_Z (Zpos p)))
  end.

(** [Math.floor]: a finite double is [+/- m * 2^e]; with [e >= 0] it is an
    integer already, otherwise the arithmetic shift of the signed mantissa
    is the floor. *)
Definition floor (x : float) : float :=
  match Prim2SF x with
  | S754_finite s m e =>
      if (0 <=? e)%Z then x
      else of_Z (Z.shiftr (if s then Zneg m else Zpos m) (- e))
  | _ => x
  end.

Definition ceil (x : float) : float :=
  PrimFloat.opp (floor (PrimFloat.opp x)).

Definition to_Z (x : float) : option Z :=
  match Prim2SF x with
  | S754_zero _ => Some 0%Z
  | S754_finite s m e =>
      if (0 <=? e)%Z
      then Some (Z.shiftl (if s then Zneg m else Zpos m) e)
      else if PrimFloat.eqb (floor x) x
           then Some (Z.shiftr (if s then Zneg m else Zpos m) (- e))
           else None
  | _ => None
  end.

Definition to_index (x : float) : option nat :=
  match to_Z x with
  | Some z => if (0 <=? z)%Z then Some (Z.to_nat z) else None
  | None => None
  end.

End Binary64.

#[export] Instance binary64 : Number float := {
  zero := PrimFloat.zero;
  one := PrimFloat.one;
  add := PrimFloat.add;
  sub := PrimFloat.sub;
  mul := PrimFloat.mul;
  div := PrimFloat.div;
  sqrt := PrimFloat.sqrt;
  abs := PrimFloat.abs;
  floor := Binary64.floor;
  ceil := Binary64.ceil;
  eqb := PrimFloat.eqb;
  ltb := PrimFloat.ltb;
  leb := PrimFloat.leb;
  of_nat := fun n => Binary64.of_Z (Z.of_nat n);
  lit := fun p q => PrimFloat.div (Binary64.of_Z (Zpos p)) (Binary64.of_Z (Zpos q));
  to_index := Binary64.to_index;
  undefined_arith := PrimFloat.nan
}.

(** ** Exact arithmetic: the real numbers *)

Module Exact.

Definition eqb (x y : R) : bool := if Req_dec_T x y then true else false.
Definition ltb (x y : R) : bool := if Rlt_dec x y then true else false.
Definition leb (x y : R) : bool := if Rle_dec x y then true else false.

Definition floor (x : R) : R := IZR (Zfloor x).
Definition ceil (x : R) : R := IZR (Zceil x).

Definition to_index (x : R) : option nat :=
  if Req_dec_T (IZR (Zfloor x)) x
  then if (0 <=? Zfloor x)%Z then Some (Z.to_nat (Zfloor x)) else None
  else None.

End Exact.

(** Over the reals no array read of [quantile] is out of range (lemma
    [quantile_exact_reads] below), so the value given to arithmetic on
    [undefined] is never used. *)
#[export] Instance exact : Number R := {
  zero := 0%R;
  one := 1%R;
  add := Rplus;
  sub := Rminus;
  mul := Rmult;
  div := Rdiv;
  sqrt := R_sqrt.sqrt;
  abs := Rabs;
  floor := Exact.floor;
  ceil := Exact.ceil;
  eqb := Exact.eqb;
  ltb := Exact.ltb;
  leb := Exact.leb;
  of_nat := INR;
  lit := fun p q => (IZR (Zpos p) / IZR (Zpos q))%R;
  to_index := Exact.to_index;
  undefined_arith := 0%R
}.

(** ** Checked arithmetic: the reals and a non-number

    [None] stands for what IEEE arithmetic answers where the reals have no
    answer: a division by 0 and the square root of a negative number yield
    it, every operation propagates it and every comparison with it is
    false.  Arithmetic on [undefined] yields it too. *)

Module Checked.

Definition lift1 (f : R -> R) (x : option R) : option R :=
  match x with
  | Some a => Some (f a)
  | None => None
  end.

Definition lift2 (f : R -> R -> R) (x y : option R) : option R :=
  match x, y with
  | Some a, Some b => Some (f a b)
  | _, _ => None
  end.

Definition test2 (f : R -> R -> bool) (x y : option R) : bool :=
  match x, y with
  | Some a, Some b => f a b
  | _, _ => false
  end.

Definition div (x y : option R) : option R :=
  match x, y with
  | Some a, Some b => if Req_dec_T b 0 then None else Some (a / b)%R
  | _, _ => None
  end.

Definition sqrt (x : option R) : option R :=
  match x with
  | Some a => if Rlt_dec a 0 then None else Some (R_sqrt.sqrt a)
  | None => None
  end.

Definition to_index (x : option R) : option nat :=
  match x with
  | Some a => Exact.to_index a
  | None => None
  end.

End Checked.

#[export] Instance checked : Number (option R) := {
  zero := Some 0%R;
  one := Some 1%R;
  add := Checked.lift2 Rplus;
  sub := Checked.lift2 Rminus;
  mul := Checked.lift2 Rmult;
  div := Checked.div;
  sqrt := Checked.sqrt;
  abs := Checked.lift1 Rabs;
  floor := Checked.lift1 Exact.floor;
  ceil := Checked.lift1 Exact.ceil;
  eqb := Checked.test2 Exact.eqb;
  ltb := Checked.test2 Exact.ltb;
  leb := Checked.test2 Exact.leb;
  of_nat := fun n => Some (INR n);
  lit := fun p q => Some (IZR (Zpos p) / IZR (Zpos q))%R;
  to_index := Checked.to_index;
  undefined_arith := None
}.

(** ** The engine *)

Section Engine.

Context {num : Type} `{Number num}.
Local Open Scope num_scope.

(** [numbers.reduce((a, b) => a + b, 0)] *)
Definition sum (numbers : list num) : num :=
  fold_left (fun a b => a + b) numbers zero.

Definition clamp (value minValue maxValue : num) : num :=
  if value <? minValue then minValue
  else if value >? maxValue then maxValue
  else value.

(** [sortedValues[k]] for a number key [k]. *)
Definition at_key (sortedValues : list num) (k : num) : option num :=
  match to_index k with
  | Some i => nth_error sortedValues i
  | None => None
  end.

Definition quantile (sortedValues : list num) (quantileValue : num) : num :=
  let length := List.length sortedValues in
  if Nat.eqb length 0 then zero
  else if quantileValue <=? zero then
    match nth_error sortedValues 0 with
    | None => zero
    | Some first => first
    end
  else if quantileValue >=? one then
    match nth_error sortedValues (length - 1) with
    | None => zero
    | Some last => last
    end
  else
    let position := of_nat (length - 1) * quantileValue in
    let lowerIndex := floor position in
    let upperIndex := ceil position in
    let weight := position - lowerIndex in
    match at_key sortedValues lowerIndex, at_key sortedValues upperIndex with
    | Some lower, Some upper => lower + (upper - lower) * weight
    | _, _ => undefined_arith
    end.

(** [values.toSorted((a, b) => a - b)]: a stable ascending sort.  An
    element moves behind a later one only when the comparator is positive
    on the pair.  This is the sorted copy for values that are numbers; with
    a NaN among them the comparator is not a consistent one and the order
    of the copy is left to the engine, so the contract of [winsorize] is
    stated for lists without NaN. *)
Fixpoint insert_sorted (v : num) (sorted : list num) : list num :=
  match sorted with
  | [] => [v]
  | w :: rest =>
      if (v - w) >? zero then w :: insert_sorted v rest
      else v :: w :: rest
  end.

Definition toSorted (values : list num) : list num :=
  fold_right insert_sorted [] values.

Definition winsorize (values : list num) (lowerQuantile upperQuantile : num)
  : list num :=
  let sorted := toSorted values in
  let lowerBound := quantile sorted lowerQuantile in
  let upperBound := quantile sorted upperQuantile in
  map (fun v => clamp v lowerBound upperBound) values.

(** *** computeLineChartAnalysis *)

Record Entry : Type := { value : num; index : nat }.

Inductive Volatility : Type :=
| very_stable | moderate | volatile | volatility_undefined.

Inductive Trend : Type :=
| strong | weak | none | trend_undefined.

Record Interpretation : Type := {
  volatility : Volatility;
  trend : Trend
}.

Record LineChartAnalysis : Type := {
  mean : num;
  standardDeviation : num;
  coefficientOfVariation : option num;
  slope : num;
  rSquared : option num;
  interpretation : Interpretation
}.

(** The first loop: entries that are [null] or [undefined] are skipped, the
    others are pushed with the position they have in the input. *)
Fixpoint collect (values : list (option num)) (i : nat) : list Entry :=
  match values with
  | [] => []
  | None :: rest => collect rest (S i)
  | Some v :: rest => {| value := v; index := i |} :: collect rest (S i)
  end.

Definition indexedValuesOf (values : list (option num)) : list Entry :=
  collect values 0.

Definition meanOf (indexedValues : list Entry) : num :=
  let n := length indexedValues in
  let _sum := fold_left (fun acc entry => acc + value entry) indexedValues zero in
  _sum / of_nat n.

Definition varianceSumOf (indexedValues : list Entry) : num :=
  let mean := meanOf indexedValues in
  fold_left (fun acc entry =>
               let diff := value entry - mean in acc + diff * diff)
            indexedValues zero.

Definition standardDeviationOf (indexedValues : list Entry) : num :=
  let n := length indexedValues in
  sqrt (varianceSumOf indexedValues / of_nat n).

Definition originalYValuesOf (indexedValues : list Entry) : list num :=
  map value indexedValues.

Definition winsorizedYValuesOf (indexedValues : list Entry) : list num :=
  let originalYValues := originalYValuesOf indexedValues in
  if Nat.leb 20 (length originalYValues)
  then winsorize originalYValues (lit 5 100) (lit 95 100)
  else originalYValues.

(** The loops over [i] read [indexedValues[i]] and [winsorizedYValues[i]]
    and skip an [i] at which either is [undefined]: they run over the
    positions both arrays have. *)
Definition regressionPoints (indexedValues : list Entry) : list (Entry * num) :=
  combine indexedValues (winsorizedYValuesOf indexedValues).

Record Sums : Type := { sumX : num; sumY : num; sumXY : num; sumXX : num }.

Definition sumsOf (points : list (Entry * num)) : Sums :=
  fold_left (fun s p =>
               let x := of_nat (index (fst p)) in
               let y := snd p in
               {| sumX := sumX s + x;
                  sumY := sumY s + y;
                  sumXY := sumXY s + x * y;
                  sumXX := sumXX s + x * x |})
            points
            {| sumX := zero; sumY := zero; sumXY := zero; sumXX := zero |}.

Definition denominatorOf (indexedValues : list Entry) : num :=
  let n := length indexedValues in
  let s := sumsOf (regressionPoints indexedValues) in
  of_nat n * sumXX s - sumX s * sumX s.

Definition slopeOf (indexedValues : list Entry) : num :=
  let n := length indexedValues in
  let s := sumsOf (regressionPoints indexedValues) in
  let denominator := denominatorOf indexedValues in
  if denominator =? zero then zero
  else (of_nat n * sumXY s - sumX s * sumY s) / denominator.

Definition meanYOf (indexedValues : list Entry) : num :=
  let n := length indexedValues in
  sumY (sumsOf (regressionPoints indexedValues)) / of_nat n.

Definition interceptOf (indexedValues : list Entry) : num :=
  let n := length indexedValues in
  let s := sumsOf (regressionPoints indexedValues) in
  (sumY s - slopeOf indexedValues * sumX s) / of_nat n.

Definition ssTotalOf (indexedValues : list Entry) : num :=
  let meanY := meanYOf indexedValues in
  fold_left (fun acc p =>
               let diff := snd p - meanY in acc + diff * diff)
            (regressionPoints indexedValues) zero.

Definition ssResidualOf (indexedValues : list Entry) : num :=
  let slope := slopeOf indexedValues in
  let intercept := interceptOf indexedValues in
  fold_left (fun acc p =>
               let x := of_nat (index (fst p)) in
               let predicted := slope * x + intercept in
               let residual := snd p - predicted in
               acc + residual * residual)
            (regressionPoints indexedValues) zero.

Definition rSquaredOf (indexedValues : list Entry) : option num :=
  if negb (denominatorOf indexedValues =? zero) then
    let ssTotal := ssTotalOf indexedValues in
    let ssResidual := ssResidualOf indexedValues in
    if negb (ssTotal =? zero) then Some (one - ssResidual / ssTotal)
    else None
  else None.

Definition volatilityOf (coefficientOfVariation : option num) : Volatility :=
  match coefficientOfVariation with
  | None => volatility_undefined
  | Some cv =>
      if cv <? lit 1 10 then very_stable
      else if cv <? lit 25 100 then moderate
      else volatile
  end.

Definition robustMeanYOf (indexedValues : list Entry) : num :=
  let winsorizedYValues := winsorizedYValuesOf indexedValues in
  if Nat.ltb 0 (length winsorizedYValues)
  then sum winsorizedYValues / of_nat (length winsorizedYValues)
  else zero.

Definition relativeSlopeOf (indexedValues : list Entry) : num :=
  let robustMeanY := robustMeanYOf indexedValues in
  if robustMeanY =? zero then zero
  else abs (slopeOf indexedValues) / robustMeanY.

Definition baseTrendOf (rSquared : num) : Trend :=
  if rSquared >? lit 75 100 then strong
  else if rSquared >? lit 4 10 then weak
  else none.

Definition upgradeTrend (relativeSlope : num) (trend : Trend) : Trend :=
  match trend with
  | none => if relativeSlope >=? lit 3 100 then weak else none
  | weak => if relativeSlope >=? lit 6 100 then strong else weak
  | other => other
  end.

Definition trendOf (indexedValues : list Entry) : Trend :=
  if standardDeviationOf indexedValues =? zero then none
  else
    match rSquaredOf indexedValues with
    | Some rSquared =>
        upgradeTrend (relativeSlopeOf indexedValues) (baseTrendOf rSquared)
    | None => trend_undefined
    end.

Definition computeLineChartAnalysis (values : list (option num))
  : LineChartAnalysis :=
  let indexedValues := indexedValuesOf values in
  match indexedValues with
  | [] =>
      {| mean := zero;
         standardDeviation := zero;
         coefficientOfVariation := None;
         slope := zero;
         rSquared := None;
         interpretation :=
           {| volatility := volatility_undefined; trend := trend_undefined |} |}
  | [only] =>
      {| mean := value only;
         standardDeviation := zero;
         coefficientOfVariation := None;
         slope := zero;
         rSquared := None;
         interpretation := {| volatility := very_stable; trend := none |} |}
  | _ =>
      let mean := meanOf indexedValues in
      let standardDeviation := standardDeviationOf indexedValues in
      let coefficientOfVariation :=
        if mean =? zero then None else Some (standardDeviation / mean) in
      {| mean := mean;
         standardDeviation := standardDeviation;
         coefficientOfVariation := coefficientOfVariation;
         slope := slopeOf indexedValues;
         rSquared := rSquaredOf indexedValues;
         interpretation :=
           {| volatility := volatilityOf coefficientOfVariation;
              trend := trendOf indexedValues |} |}
  end.

End Engine.

Arguments Entry num : clear implicits.
Arguments LineChartAnalysis num : clear implicits.
Arguments Sums num : clear implicits.

(** ** Notions used in the statements *)

(** An entry of the input that carries no observation. *)
Definition missing {num : Type} (v : option num) : Prop := v = None.

(** The order of the trend classes, for "upgraded" and "downgraded". *)
Definition trend_rank (t : Trend) : nat :=
  match t with
  | strong => 2
  | weak => 1
  | none => 0
  | trend_undefined => 0
  end.

(** Sums over the reals, and the coordinates of a regression point. *)
Fixpoint Rsum {A : Type} (f : A -> R) (l : list A) : R :=
  match l with
  | [] => 0%R
  | a :: rest => (f a + Rsum f rest)%R
  end.

Definition xOf (p : Entry R * R) : R := INR (index (fst p)).
Definition yOf (p : Entry R * R) : R := snd p.

(** Real data seen as data of the checked arithmetic. *)
Definition liftEntry (e : Entry R) : Entry (option R) :=
  {| value := Some (value e); index := index e |}.

Definition liftPoint (p : Entry R * R) : Entry (option R) * option R :=
  (liftEntry (fst p), Some (snd p)).

Definition liftSums (s : Sums R) : Sums (option R) :=
  {| sumX := Some (sumX s);
     sumY := Some (sumY s);
     sumXY := Some (sumXY s);
     sumXX := Some (sumXX s) |}.

Definition liftAnalysis (r : LineChartAnalysis R) : LineChartAnalysis (option R) :=
  {| mean := Some (mean r);
     standardDeviation := Some (standardDeviation r);
     coefficientOfVariation := option_map Some (coefficientOfVariation r);
     slope := Some (slope r);
     rSquared := option_map Some (rSquared r);
     interpretation := interpretation r |}.

(** ** Weekly aggregation *)

Section Chunks.

Context {T : Type}.

(** [items.slice(start, stop)] for integers [start] and [stop]: a negative
    bound counts from the end, both are cut to [0 .. items.length], and the
    elements from the first bound up to (not including) the second are
    copied. *)
Definition slice (items : list T) (start stop : Z) : list T :=
  let len := Z.of_nat (length items) in
  let from := if (start <? 0)%Z then Z.max (len + start) 0 else Z.min start len in
  let to := if (stop <? 0)%Z then Z.max (len + stop) 0 else Z.min stop len in
  firstn (Z.to_nat (to - from)) (skipn (Z.to_nat from) items).

(** The loop of [chunkIntoWeeks], for an integer week size.  It runs while
    [index < items.length]; [fuel] bounds the number of iterations, and
    [None] means that the loop was still running when the bound was
    reached. *)
Fixpoint chunkLoop (fuel : nat) (items : list T) (weekSize index : Z)
         (result : list (list T)) : option (list (list T)) :=
  if (index <? Z.of_nat (length items))%Z then
    match fuel with
    | O => None
    | S fuel' =>
        chunkLoop fuel' items weekSize (index + weekSize)
                  (result ++ [slice items index (index + weekSize)])
    end
  else Some result.

Definition chunkIntoWeeks (fuel : nat) (items : list T) (weekSize : Z)
  : option (list (list T)) :=
  chunkLoop fuel items weekSize 0 [].

End Chunks.

Module Daily.
Record t (num : Type) : Type := { day : String.string; downloads : num }.
Arguments day {num} _.
Arguments downloads {num} _.
End Daily.

Module Weekly.
Record t (num : Type) : Type :=
  { weekStart : String.string; weekEnd : String.string; downloads : num }.
Arguments weekStart {num} _.
Arguments weekEnd {num} _.
Arguments downloads {num} _.
End Weekly.

Section WeeklyEvolution.

Context {num : Type} `{Number num}.

(** The callback of [weeks.map]: [weekDays[0]?.day ?? ''],
    [weekDays[weekDays.length - 1]?.day ?? ''] and the sum of the week. *)
Definition weekOf (weekDays : list (Daily.t num)) : Weekly.t num :=
  {| Weekly.weekStart :=
       match nth_error weekDays 0 with
       | Some d => Daily.day d
       | None => String.EmptyString
       end;
     Weekly.weekEnd :=
       match nth_error weekDays (length weekDays - 1) with
       | Some d => Daily.day d
       | None => String.EmptyString
       end;
     Weekly.downloads := sum (map Daily.downloads weekDays) |}.

Definition buildWeeklyEvolutionFromDaily (fuel : nat) (daily : list (Daily.t num))
  : option (list (Weekly.t num)) :=
  match chunkIntoWeeks fuel daily 7 with
  | Some weeks => Some (map weekOf weeks)
  | None => None
  end.

End WeeklyEvolution.

(** ** Route helpers *)

Module Routes.

Import String Ascii.
Local Open Scope string_scope.

(** [s.startsWith(c)] and [s.split(sep)] for a one-character [c], [sep]. *)
Definition startsWith (s : string) (c : ascii) : bool :=
  match s with
  | String c' _ => Ascii.eqb c' c
  | EmptyString => false
  end.

Fixpoint split (sep : ascii) (s : string) : list string :=
  match s with
  | EmptyString => [EmptyString]
  | String c rest =>
      if Ascii.eqb c sep then EmptyString :: split sep rest
      else match split sep rest with
           | piece :: pieces => String c piece :: pieces
           | [] => [String c EmptyString]
           end
  end.

(** A route location: its name and its params, each param a string or
    [undefined] ([None]). *)
Record RouteLocationRaw : Type := {
  name : string;
  params : list (string * option string)
}.

(** [const [org, name = ''] = packageName.startsWith('@')
      ? packageName.split('/') : ['', packageName]] *)
Definition orgAndName (packageName : string) : option string * string :=
  let parts :=
    if startsWith packageName "@" then split "/" packageName
    else [""; packageName] in
  (nth_error parts 0,
   match nth_error parts 1 with
   | Some name => name
   | None => ""
   end).

(** [if (version)]: a string that is not empty. *)
Definition truthy (version : option string) : bool :=
  match version with
  | Some (String _ _) => true
  | _ => false
  end.

Definition packageRoute (packageName : string) (version : option string)
  : RouteLocationRaw :=
  let (org, name) := orgAndName packageName in
  if truthy version then
    {| name := "package-version";
       params := [("org", org); ("name", Some name); ("version", version)] |}
  else
    {| name := "package";
       params := [("org", org); ("name", Some name)] |}.

(** [org || undefined] *)
Definition orUndefined (org : option string) : option string :=
  match org with
  | Some (String c rest) => Some (String c rest)
  | _ => None
  end.

Definition diffRoute (packageName fromVersion toVersion : string)
  : RouteLocationRaw :=
  let (org, name) := orgAndName packageName in
  {| name := "diff";
     params := [("org", orUndefined org);
                ("packageName", Some name);
                ("versionRange", Some (fromVersion ++ "..." ++ toVersion))] |}.

(** Reading a param of a route. *)
Fixpoint param (key : string) (ps : list (string * option string))
  : option string :=
  match ps with
  | [] => None
  | (k, v) :: rest => if String.eqb k key then v else param key rest
  end.

End Routes.

(** ** The versions of the bar chart *)

Module VersionsBar.

Import String.

Record Version (num : Type) : Type := {
  index : nat;
  name : string;
  rawDownloads : num;
  downloads : string
}.
Arguments index {num} _.
Arguments name {num} _.
Arguments rawDownloads {num} _.
Arguments downloads {num} _.

Section Versions.

Context {num : Type} `{Number num}.

(** [series.map((value, index) => ({ index,
      name: config.datapointLabels[index] ?? '-',
      rawDownloads: value ?? 0,
      downloads: config.numberFormatter(value ?? 0) }))] *)
Fixpoint versionsFrom (series : list (option num)) (datapointLabels : list string)
         (numberFormatter : num -> string) (index : nat) : list (Version num) :=
  match series with
  | [] => []
  | value :: rest =>
      let raw := match value with Some v => v | None => zero end in
      {| index := index;
         name := match nth_error datapointLabels index with
                 | Some label => label
                 | None => "-"%string
                 end;
         rawDownloads := raw;
         downloads := numberFormatter raw |}
      :: versionsFrom rest datapointLabels numberFormatter (S index)
  end.

Definition versions (series : list (option num)) (datapointLabels : list string)
           (numberFormatter : num -> string) : list (Version num) :=
  versionsFrom series datapointLabels numberFormatter 0.

(** [versions.length > 0
      ? versions.reduce((max, current) =>
          current.rawDownloads > max.rawDownloads ? current : max)
      : undefined] *)
Definition versionWithMaxDownloads (versions : list (Version num))
  : option (Version num) :=
  match versions with
  | [] => None
  | first :: rest =>
      Some (fold_left
              (fun max current =>
                 if (rawDownloads current >? rawDownloads max)%num
                 then current else max)
              rest first)
  end.

(** [versions.toReversed()
      .filter(v => v.index !== versionWithMaxDownloads?.index)]: the
    versions handed to the per-version translation, in that order. *)
Definition otherVersions (versions : list (Version num)) : list (Version num) :=
  filter (fun v =>
            match versionWithMaxDownloads versions with
            | Some max => negb (Nat.eqb (index v) (index max))
            | None => true
            end)
         (rev versions).

(** [per_version_analysis]: each of them through the translation callback
    [t] (called with its name and its formatted downloads), joined by
    [', ']. *)
Definition per_version_analysis (versions : list (Version num))
           (t : string -> string -> string) : string :=
  String.concat ", "%string
                (map (fun v => t (name v) (downloads v)) (otherVersions versions)).

End Versions.

End VersionsBar.

(** ** Notions used in the further properties *)

(** The number of chunks of [n] items: n / weekSize, rounded up. *)
Definition chunkCount (n : nat) (weekSize : Z) : nat :=
  Z.to_nat ((Z.of_nat n + weekSize - 1) / weekSize).

(** An entry moved [k] positions along the index axis. *)
Definition shiftEntry {num : Type} (k : nat) (e : Entry num) : Entry num :=
  {| value := value e; index := index e + k |}.

(** ** The decimal literals of the source, in binary64

    [lit p q] divides two integers that binary64 holds exactly; IEEE division
    rounds the quotient to the nearest double, which is the double the
    literal denotes. *)

Lemma binary64_literals :
  (lit 5 100 = 0.05 /\ lit 95 100 = 0.95 /\ lit 1 10 = 0.1 /\
   lit 25 100 = 0.25 /\ lit 75 100 = 0.75 /\ lit 4 10 = 0.4 /\
   lit 3 100 = 0.03 /\ lit 6 100 = 0.06)%float.
Proof. repeat split; reflexivity. Qed.

(** ** The repository's unit tests, evaluated in binary64 *)

Lemma repository_tests_quantile :
  (quantile [] 0.5 = 0
   /\ quantile [10; 20; 30] 0 = 10 /\ quantile [10; 20; 30] (-1) = 10
   /\ quantile [10; 20; 30] 1 = 30 /\ quantile [10; 20; 30] 2 = 30
   /\ quantile [10; 20; 30] 0.5 = 20
   /\ quantile [10; 20; 30; 40] 0.5 = 25
   /\ quantile [0; 10; 20; 30] 0.25 = 7.5
   /\ quantile [0; 10; 20; 30] 0.75 = 22.5
   /\ quantile [0; 10; 20; 30] (1 / 3) = 10
   /\ quantile [-30; -20; -10; 0] 0.5 = -15
   /\ quantile [42] 0 = 42 /\ quantile [42] 0.5 = 42 /\ quantile [42] 1 = 42)%float.
Proof. repeat split; vm_compute; reflexivity. Qed.

Lemma repository_tests_winsorize :
  (winsorize [1; 2; 3; 4; 100] 0.2 0.8 = [1.8; 2; 3; 4; 23.200000000000017]
   /\ winsorize [0; 0; 0; 0; 10] 0.2 0.8 = [0; 0; 0; 0; 2.0000000000000018]
   /\ clamp 5 0 10 = 5 /\ clamp (-5) 0 10 = 0 /\ clamp 15 0 10 = 10)%float.
Proof. repeat split; vm_compute; reflexivity. Qed.

Lemma repository_tests_analysis :
  computeLineChartAnalysis [Some 42%float] =
    {| mean := 42%float; standardDeviation := 0%float;
       coefficientOfVariation := None; slope := 0%float; rSquared := None;
       interpretation := {| volatility := very_stable; trend := none |} |}
  /\ computeLineChartAnalysis [None; Some 42%float; None] =
       computeLineChartAnalysis [Some 42%float]
  /\ computeLineChartAnalysis [Some 0; Some 0; Some 0; Some 0]%float =
       {| mean := 0%float; standardDeviation := 0%float;
          coefficientOfVariation := None; slope := 0%float; rSquared := None;
          interpretation :=
            {| volatility := volatility_undefined; trend := none |} |}
  /\ (let r := computeLineChartAnalysis [Some 0; Some 10]%float in
      mean r = 5%float /\ standardDeviation r = 5%float
      /\ coefficientOfVariation r = Some 1%float
      /\ slope r = 10%float /\ rSquared r = Some 1%float
      /\ volatility (interpretation r) = volatile)
  /\ (let r := computeLineChartAnalysis [Some 5; Some 5; Some 5]%float in
      mean r = 5%float /\ standardDeviation r = 0%float /\ rSquared r = None
      /\ trend (interpretation r) = none)
  /\ (let r := computeLineChartAnalysis [Some 10; Some 20; Some 30; Some 40]%float in
      mean r = 25%float /\ slope r = 10%float /\ rSquared r = Some 1%float
      /\ trend (interpretation r) = strong)
  /\ (let r := computeLineChartAnalysis [Some 40; Some 30; Some 20; Some 10]%float in
      mean r = 25%float /\ slope r = (-10)%float /\ rSquared r = Some 1%float
      /\ trend (interpretation r) = strong).
Proof. cbv zeta. repeat split; vm_compute; reflexivity. Qed.

(** ** Order and arithmetic of binary64 on numbers

    From the specification of the primitive floats: comparisons are total
    away from NaN, [x - x] is 0 and [x + 0] is [x] (up to the sign of zero)
    for finite [x]. *)

Section Binary64Facts.

Lemma SFcompare_antisym (x y : spec_float) (c : comparison) :
  SFcompare x y = Some c -> SFcompare y x = Some (CompOpp c).
Proof.
  destruct x as [sx|sx| |sx mx ex], y as [sy|sy| |sy my ey]; cbn;
    try discriminate;
    try (destruct sx; try destruct sy; intro Hc; injection Hc as <-; reflexivity);
    try (destruct sy; intro Hc; injection Hc as <-; reflexivity);
    try (intro Hc; injection Hc as <-; reflexivity).
  intro Hc. injection Hc as <-. f_equal.
  destruct sx, sy; try reflexivity.
  - rewrite (Z.compare_antisym ey ex).
    destruct (ey ?= ex)%Z; cbn; try reflexivity.
    rewrite (Pos.compare_cont_antisym mx my Eq). reflexivity.
  - rewrite (Z.compare_antisym ey ex).
    destruct (ey ?= ex)%Z; cbn; try reflexivity.
    rewrite (Pos.compare_cont_antisym mx my Eq). reflexivity.
Qed.

Lemma SFcompare_total (x y : spec_float) :
  x <> S754_nan -> y <> S754_nan -> exists c, SFcompare x y = Some c.
Proof.
  destruct x, y; cbn; intros Hx Hy; try congruence; eauto.
Qed.

Lemma SFcompare_refl (x : spec_float) :
  x <> S754_nan -> SFcompare x x = Some Eq.
Proof.
  destruct x as [s|s| |s m e]; cbn; intro Hx; try congruence.
  - destruct s; reflexivity.
  - rewrite Z.compare_refl.
    assert (Hm : Pos.compare_cont Eq m m = Eq) by apply Pos.compare_cont_refl.
    destruct s; cbn; rewrite ?Hm; reflexivity.
Qed.

Lemma SFleb_not_nan (x y : spec_float) :
  SFleb x y = true -> x <> S754_nan /\ y <> S754_nan.
Proof.
  unfold SFleb. destruct x, y; cbn; try discriminate; split; discriminate.
Qed.

Lemma is_nan_spec (x : float) : PrimFloat.is_nan x = false <-> Prim2SF x <> S754_nan.
Proof.
  unfold PrimFloat.is_nan. rewrite FloatAxioms.eqb_spec. unfold SFeqb.
  destruct (Prim2SF x) as [s|s| |s m e] eqn:Hx.
  - cbn. split; [discriminate | reflexivity].
  - cbn. destruct s; (split; [discriminate | reflexivity]).
  - cbn. split; [discriminate | congruence].
  - rewrite SFcompare_refl by discriminate. cbn. split; [discriminate | reflexivity].
Qed.

Lemma leb_of_not_ltb (x y : float) :
  PrimFloat.is_nan x = false -> PrimFloat.is_nan y = false ->
  (x <? y)%float = false -> (y <=? x)%float = true.
Proof.
  rewrite !is_nan_spec, FloatAxioms.ltb_spec, FloatAxioms.leb_spec.
  intros Hx Hy. unfold SFltb, SFleb.
  destruct (SFcompare_total _ _ Hx Hy) as [c Hc].
  rewrite Hc, (SFcompare_antisym _ _ _ Hc).
  destruct c; cbn; congruence.
Qed.

Lemma leb_refl_of_leb (x y : float) :
  (x <=? y)%float = true ->
  PrimFloat.is_nan x = false /\ PrimFloat.is_nan y = false
  /\ (x <=? x)%float = true /\ (y <=? y)%float = true.
Proof.
  rewrite !is_nan_spec, !FloatAxioms.leb_spec. intro Hle.
  destruct (SFleb_not_nan _ _ Hle) as [Hx Hy].
  unfold SFleb. rewrite !SFcompare_refl by assumption. auto.
Qed.

Lemma is_finite_spec (x : float) :
  PrimFloat.is_finite x = true ->
  (exists s, Prim2SF x = S754_zero s)
  \/ (exists s m e, Prim2SF x = S754_finite s m e).
Proof.
  unfold PrimFloat.is_finite, PrimFloat.is_infinity.
  destruct (PrimFloat.is_nan x) eqn:Hnan; [discriminate|]. cbn.
  rewrite FloatAxioms.eqb_spec, FloatAxioms.abs_spec.
  destruct (Prim2SF x) as [s|s| |s m e] eqn:Hx; eauto.
  - cbn. discriminate.
  - apply is_nan_spec in Hnan. congruence.
Qed.

Lemma sub_diag_finite (x : float) : PrimFloat.is_finite x = true -> (x - x)%float = 0%float.
Proof.
  intro Hfin. apply Prim2SF_inj. rewrite FloatAxioms.sub_spec.
  change (Prim2SF 0) with (S754_zero false).
  destruct (is_finite_spec x Hfin) as [[s ->] | [s [m [e ->]]]].
  - destruct s; reflexivity.
  - unfold SF64sub, SFsub.
    match goal with
    | |- binary_normalize _ _ (_ ?a ?a) _ _ = _ =>
        generalize a; intro z
    end.
    assert (Hz : Z.sub z z = 0%Z) by apply Z.sub_diag.
    unfold binary_normalize.
    match goal with
    | |- match ?d with _ => _ end = _ => change d with (Z.sub z z)
    end.
    rewrite Hz. reflexivity.
Qed.

Lemma add_zero_finite (x : float) :
  PrimFloat.is_finite x = true -> ((x + 0) =? x)%float = true.
Proof.
  intro Hfin. rewrite FloatAxioms.eqb_spec, FloatAxioms.add_spec.
  change (Prim2SF 0) with (S754_zero false).
  destruct (is_finite_spec x Hfin) as [[s Hx] | [s [m [e Hx]]]]; rewrite Hx.
  - destruct s; reflexivity.
  - change (SF64add (S754_finite s m e) (S754_zero false))
      with (S754_finite s m e).
    unfold SFeqb. rewrite SFcompare_refl by discriminate. reflexivity.
Qed.

Lemma mul_zero_fraction (q : float) :
  PrimFloat.is_nan q = false -> (q <=? 0)%float = false -> (1 <=? q)%float = false ->
  (0 * q)%float = 0%float.
Proof.
  rewrite is_nan_spec, !FloatAxioms.leb_spec.
  change (Prim2SF 0) with (S754_zero false).
  change (Prim2SF 1) with (S754_finite false 4503599627370496 (-52)).
  intros Hnan H0 H1. apply Prim2SF_inj. rewrite FloatAxioms.mul_spec.
  change (Prim2SF 0) with (S754_zero false).
  destruct (Prim2SF q) as [s|s| |s m e]; try congruence.
  - cbn in H0. discriminate.
  - destruct s; cbn in *; discriminate.
  - destruct s; cbn in *; [discriminate | reflexivity].
Qed.

Lemma eqb_refl_finite (x : float) :
  PrimFloat.is_finite x = true -> (x =? x)%float = true.
Proof.
  intro Hfin. rewrite FloatAxioms.eqb_spec. unfold SFeqb.
  destruct (is_finite_spec x Hfin) as [[s ->] | [s [m [e ->]]]].
  - reflexivity.
  - rewrite SFcompare_refl by discriminate. reflexivity.
Qed.

Lemma clamp_binary64_range (v lowerBound upperBound : float) :
  PrimFloat.is_nan v = false ->
  (lowerBound <=? upperBound)%float = true ->
  (lowerBound <=? clamp v lowerBound upperBound)%float = true
  /\ (clamp v lowerBound upperBound <=? upperBound)%float = true.
Proof.
  intros Hv Hbounds.
  destruct (leb_refl_of_leb _ _ Hbounds) as [Hlo [Hhi [Hlolo Hhihi]]].
  unfold clamp, gtb. cbn [ltb binary64].
  destruct (v <? lowerBound)%float eqn:Hcmp1; [auto|].
  destruct (upperBound <? v)%float eqn:Hcmp2; [auto|].
  split; apply leb_of_not_ltb; assumption.
Qed.

(** A single finite element is returned for every number q (as [===]
    sees it: a single -0 comes back as 0 when 0 < q < 1). *)
Lemma quantile_binary64_single (x q : float) :
  PrimFloat.is_finite x = true ->
  PrimFloat.is_nan q = false ->
  (quantile [x] q =? x)%float = true.
Proof.
  intros Hx Hq. unfold quantile, geb. cbn [length Nat.eqb Nat.sub nth_error].
  cbn [leb zero one binary64].
  change PrimFloat.zero with 0%float. change PrimFloat.one with 1%float.
  destruct (q <=? 0)%float eqn:Hq0; [apply eqb_refl_finite, Hx|].
  destruct (1 <=? q)%float eqn:Hq1; [apply eqb_refl_finite, Hx|].
  cbn [of_nat mul binary64 Z.of_nat Binary64.of_Z].
  change PrimFloat.zero with 0%float.
  rewrite (mul_zero_fraction q Hq Hq0 Hq1).
  change (at_key [x] (floor 0%float)) with (Some x).
  change (at_key [x] (ceil 0%float)) with (Some x).
  cbn [add sub mul floor binary64].
  rewrite (sub_diag_finite x Hx).
  change ((0 * (0 - Binary64.floor 0))%float) with 0%float.
  apply add_zero_finite, Hx.
Qed.



End Binary64Facts.

(** ** Control flow: facts that hold for every arithmetic *)

Section ControlFlow.

Context {num : Type} `{Number num}.
Local Open Scope num_scope.

Lemma collect_missing (values : list (option num)) :
  Forall missing values -> forall i, collect values i = [].
Proof.
  induction 1 as [|v rest Hv _ IH]; intro i; cbn.
  - reflexivity.
  - rewrite Hv. apply IH.
Qed.

(** With two observations or more the result is assembled from the
    statistics of the indexed values. *)
Lemma analysis_general (values : list (option num)) :
  2 <= length (indexedValuesOf values) ->
  computeLineChartAnalysis values =
    let indexedValues := indexedValuesOf values in
    let coefficientOfVariation :=
      if meanOf indexedValues =? zero then None
      else Some (standardDeviationOf indexedValues / meanOf indexedValues) in
    {| mean := meanOf indexedValues;
       standardDeviation := standardDeviationOf indexedValues;
       coefficientOfVariation := coefficientOfVariation;
       slope := slopeOf indexedValues;
       rSquared := rSquaredOf indexedValues;
       interpretation :=
         {| volatility := volatilityOf coefficientOfVariation;
            trend := trendOf indexedValues |} |}.
Proof.
  unfold computeLineChartAnalysis.
  destruct (indexedValuesOf values) as [|e1 [|e2 rest]]; cbn [length]; intro Hn.
  - lia.
  - lia.
  - reflexivity.
Qed.

Lemma analysis_single (values : list (option num)) (only : Entry num) :
  indexedValuesOf values = [only] ->
  computeLineChartAnalysis values =
    {| mean := value only;
       standardDeviation := zero;
       coefficientOfVariation := None;
       slope := zero;
       rSquared := None;
       interpretation := {| volatility := very_stable; trend := none |} |}.
Proof. unfold computeLineChartAnalysis. intros ->. reflexivity. Qed.

Lemma analysis_empty (values : list (option num)) :
  indexedValuesOf values = [] ->
  computeLineChartAnalysis values =
    {| mean := zero;
       standardDeviation := zero;
       coefficientOfVariation := None;
       slope := zero;
       rSquared := None;
       interpretation :=
         {| volatility := volatility_undefined; trend := trend_undefined |} |}.
Proof. unfold computeLineChartAnalysis. intros ->. reflexivity. Qed.

(** C3.  The analysis of the empty series is the degenerate summary (mean 0,
    standardDeviation 0, coefficientOfVariation null, slope 0, rSquared null,
    volatility and trend 'undefined'), and a series made of missing entries
    only has the same analysis as the empty series. *)
Theorem empty_and_all_missing_series :
  computeLineChartAnalysis [] =
    {| mean := zero;
       standardDeviation := zero;
       coefficientOfVariation := None;
       slope := zero;
       rSquared := None;
       interpretation :=
         {| volatility := volatility_undefined; trend := trend_undefined |} |}
  /\ forall values : list (option num),
       Forall missing values ->
       computeLineChartAnalysis values = computeLineChartAnalysis [].
Proof.
  split.
  - reflexivity.
  - intros values Hall.
    rewrite (analysis_empty values), (analysis_empty []); try reflexivity.
    apply collect_missing, Hall.
Qed.

(** C1, amended.  With fewer than two observations coefficientOfVariation is
    always null (whatever the mean); with two or more it is null exactly when
    the mean is 0, and otherwise it is standardDeviation / mean. *)
Theorem coefficientOfVariation_null_iff (values : list (option num)) :
  let r := computeLineChartAnalysis values in
  (length (indexedValuesOf values) < 2 -> coefficientOfVariation r = None)
  /\ (2 <= length (indexedValuesOf values) ->
      (coefficientOfVariation r = None <-> (mean r =? zero) = true)
      /\ ((mean r =? zero) = false ->
          coefficientOfVariation r = Some (standardDeviation r / mean r))).
Proof.
  cbv zeta. split.
  - unfold computeLineChartAnalysis.
    destruct (indexedValuesOf values) as [|e1 [|e2 rest]]; cbn; intro Hn;
      [reflexivity | reflexivity | lia].
  - intro Hn. rewrite (analysis_general values Hn). cbn.
    destruct (meanOf (indexedValuesOf values) =? zero); split;
      try split; intros; congruence.
Qed.

Lemma upgradeTrend_steps (relativeSlope : num) (t : Trend) :
  trend_rank t <= trend_rank (upgradeTrend relativeSlope t) <= S (trend_rank t)
  /\ (t = trend_undefined <-> upgradeTrend relativeSlope t = trend_undefined).
Proof.
  destruct t; cbn;
    try destruct (relativeSlope >=? lit 3 100);
    try destruct (relativeSlope >=? lit 6 100);
    cbn; repeat split; intros; try lia; congruence.
Qed.

(** C8, amended.  The empty series has standardDeviation 0 and trend
    'undefined'.  For a series with at least one observation:
    standardDeviation = 0 gives 'none'; otherwise a null rSquared gives
    'undefined'; otherwise the base trend is 'strong' above 0.75, 'weak'
    above 0.4, else 'none', and it is upgraded from relativeSlope =
    |slope| / mean of the winsorized values (0 when that mean is 0): 'none'
    to 'weak' from 0.03, 'weak' to 'strong' from 0.06.  An upgrade moves one
    step at most and never downwards. *)
Theorem trend_classification (values : list (option num)) :
  let r := computeLineChartAnalysis values in
  let indexedValues := indexedValuesOf values in
  (zero =? zero) = true ->
  (indexedValues = [] ->
   (standardDeviation r =? zero) = true
   /\ trend (interpretation r) = trend_undefined)
  /\ (indexedValues <> [] ->
      trend (interpretation r) =
        if standardDeviation r =? zero then none
        else
          match rSquared r with
          | None => trend_undefined
          | Some rSquared =>
              let winsorizedYValues := winsorizedYValuesOf indexedValues in
              let robustMeanY :=
                if Nat.ltb 0 (length winsorizedYValues)
                then sum winsorizedYValues / of_nat (length winsorizedYValues)
                else zero in
              let relativeSlope :=
                if robustMeanY =? zero then zero
                else abs (slope r) / robustMeanY in
              if rSquared >? lit 75 100 then strong
              else if rSquared >? lit 4 10 then
                if relativeSlope >=? lit 6 100 then strong else weak
              else
                if relativeSlope >=? lit 3 100 then weak else none
          end)
  /\ (forall (relativeSlope : num) (t : Trend),
        trend_rank t <= trend_rank (upgradeTrend relativeSlope t)
                     <= S (trend_rank t)).
Proof.
  cbv zeta. intro Hzero. split; [|split].
  - intro Hempty. rewrite (analysis_empty values Hempty). cbn. auto.
  - intro Hne.
    destruct (indexedValuesOf values) as [|e1 [|e2 rest]] eqn:Hiv.
    + congruence.
    + rewrite (analysis_single values e1 Hiv). cbn. rewrite Hzero. reflexivity.
    + assert (Hn : 2 <= length (indexedValuesOf values))
        by (rewrite Hiv; cbn; lia).
      rewrite (analysis_general values Hn). cbn. rewrite Hiv.
      unfold trendOf.
      destruct (standardDeviationOf (e1 :: e2 :: rest) =? zero);
        [reflexivity|].
      destruct (rSquaredOf (e1 :: e2 :: rest)) as [r2|]; [|reflexivity].
      unfold upgradeTrend, baseTrendOf, relativeSlopeOf, robustMeanYOf.
      destruct (r2 >? lit 75 100); [reflexivity|].
      destruct (r2 >? lit 4 10); reflexivity.
  - intros rs t. apply upgradeTrend_steps.
Qed.

(** *** Winsorization keeps length and positions *)

Lemma winsorize_length (values : list num) (lowerQuantile upperQuantile : num) :
  length (winsorize values lowerQuantile upperQuantile) = length values.
Proof. unfold winsorize. apply length_map. Qed.

Lemma winsorize_nth_error (values : list num) (lowerQuantile upperQuantile : num)
      (i : nat) :
  nth_error (winsorize values lowerQuantile upperQuantile) i =
    option_map
      (fun v => clamp v (quantile (toSorted values) lowerQuantile)
                        (quantile (toSorted values) upperQuantile))
      (nth_error values i).
Proof. unfold winsorize. apply nth_error_map. Qed.

Lemma winsorizedYValuesOf_length (indexedValues : list (Entry num)) :
  length (winsorizedYValuesOf indexedValues) = length indexedValues.
Proof.
  unfold winsorizedYValuesOf, originalYValuesOf.
  destruct (Nat.leb 20 _).
  - rewrite winsorize_length. apply length_map.
  - apply length_map.
Qed.

(** No position is skipped by the regression loops: the points are the
    indexed values, in order, each paired with its regression input. *)
Lemma regressionPoints_fst (indexedValues : list (Entry num)) :
  map fst (regressionPoints indexedValues) = indexedValues.
Proof.
  unfold regressionPoints.
  generalize (winsorizedYValuesOf_length indexedValues).
  generalize (winsorizedYValuesOf indexedValues) as ws.
  induction indexedValues as [|e rest IH]; intros [|w ws] Hlen;
    cbn in *; try congruence.
  f_equal. apply IH. congruence.
Qed.


Lemma regressionPoints_length (indexedValues : list (Entry num)) :
  length (regressionPoints indexedValues) = length indexedValues.
Proof.
  rewrite <- (regressionPoints_fst indexedValues) at 2.
  symmetry. apply length_map.
Qed.

(** *** The indexed values are the present entries at their positions *)

Lemma collect_In (values : list (option num)) (i : nat) (e : Entry num) :
  In e (collect values i) <->
  i <= index e /\ nth_error values (index e - i)%nat = Some (Some (value e)).
Proof.
  revert i. induction values as [|v rest IH]; intro i; cbn.
  - split; [tauto|]. intros [_ Hnth]. destruct (index e - i)%nat; discriminate.
  - assert (Hrest : In e (collect rest (S i)) <->
                    i < index e /\
                    nth_error (v :: rest) (index e - i)%nat
                      = Some (Some (value e))).
    { rewrite IH. split; intros [Hle Hnth]; (split; [lia|]).
      - replace (index e - i)%nat with (S (index e - S i)) by lia. exact Hnth.
      - replace (index e - i)%nat with (S (index e - S i)) in Hnth by lia.
        exact Hnth. }
    assert (Hhead : forall w, {| value := w; index := i |} = e <->
                              index e = i /\ w = value e).
    { intro w. destruct e as [ve ie]; cbn. split.
      - intro Heq. injection Heq. auto.
      - intros [<- <-]. reflexivity. }
    destruct v as [v|]; cbn [In]; rewrite ?Hhead, Hrest.
    + split.
      * intros [[Hi Hv] | [Hlt Hnth]].
        -- split; [lia|]. rewrite Hi, Nat.sub_diag. cbn. congruence.
        -- split; [lia | exact Hnth].
      * intros [Hle Hnth].
        destruct (Nat.eq_dec (index e) i) as [Heq|Hneq].
        -- left. rewrite Heq, Nat.sub_diag in Hnth. cbn in Hnth.
           split; congruence.
        -- right. split; [lia | exact Hnth].
    + split.
      * intros [Hlt Hnth]. split; [lia | exact Hnth].
      * intros [Hle Hnth].
        destruct (Nat.eq_dec (index e) i) as [Heq|Hneq].
        -- rewrite Heq, Nat.sub_diag in Hnth. discriminate.
        -- split; [lia | exact Hnth].
Qed.

Lemma indexedValuesOf_In (values : list (option num)) (e : Entry num) :
  In e (indexedValuesOf values) <->
  nth_error values (index e) = Some (Some (value e)).
Proof.
  unfold indexedValuesOf. rewrite collect_In, Nat.sub_0_r.
  split; [tauto | split; [lia | assumption]].
Qed.

Lemma collect_increasing (values : list (option num)) (i : nat) :
  StronglySorted (fun a b : Entry num => index a < index b) (collect values i).
Proof.
  revert i. induction values as [|v rest IH]; intro i; cbn.
  - constructor.
  - destruct v as [v|]; [|apply IH].
    constructor; [apply IH|].
    apply Forall_forall. intros e He. apply collect_In in He. cbn. lia.
Qed.

(** *** rSquared is null exactly on the two guards *)


(** *** Below twenty observations the regression runs on the raw values *)

Lemma winsorizedYValuesOf_small (indexedValues : list (Entry num)) :
  length indexedValues < 20 ->
  winsorizedYValuesOf indexedValues = map (@value num) indexedValues.
Proof.
  intro Hn. unfold winsorizedYValuesOf, originalYValuesOf.
  rewrite length_map.
  destruct (Nat.leb 20 (length indexedValues)) eqn:Hle; [|reflexivity].
  apply Nat.leb_le in Hle. lia.
Qed.


Lemma regressionPoints_small (indexedValues : list (Entry num)) :
  length indexedValues < 20 ->
  regressionPoints indexedValues = map (fun e => (e, value e)) indexedValues.
Proof.
  intro Hn. unfold regressionPoints. rewrite winsorizedYValuesOf_small by exact Hn.
  clear Hn. induction indexedValues as [|e rest IH]; cbn; [|rewrite IH];
    reflexivity.
Qed.





End ControlFlow.


(** C1 as stated fails on a single observation: [42] has mean 42, which is
    not 0, and a null coefficientOfVariation (in binary64 and over the
    reals). *)
Lemma coefficientOfVariation_single_value :
  (let r := computeLineChartAnalysis [Some 42%float] in
   mean r = 42%float /\ (mean r =? zero)%num = false
   /\ coefficientOfVariation r = None
   /\ ~ (coefficientOfVariation r = None <-> (mean r =? zero)%num = true))
  /\ (let r := computeLineChartAnalysis [Some 42%R] in
      mean r = 42%R /\ mean r <> 0%R /\ coefficientOfVariation r = None).
Proof.
  split.
  - cbv zeta. repeat split; try reflexivity.
    vm_compute. intros [Hcv _]. specialize (Hcv eq_refl). discriminate.
  - cbv zeta. cbn. repeat split. lra.
Qed.

Lemma coefficientOfVariation_null_iff_witness :
  let values := [Some 10; Some 20; Some 30; Some 40]%float in
  let r := computeLineChartAnalysis values in
  (coefficientOfVariation r = None <-> (mean r =? zero)%num = true)
  /\ coefficientOfVariation r = Some (standardDeviation r / mean r)%num.
Proof.
  cbv zeta.
  destruct (coefficientOfVariation_null_iff [Some 10; Some 20; Some 30; Some 40]%float)
    as [_ Hge].
  destruct Hge as [Hiff Hval].
  - vm_compute. lia.
  - split; [exact Hiff | apply Hval; reflexivity].
Defined.

Lemma empty_and_all_missing_series_witness :
  computeLineChartAnalysis [None; None] =
    {| mean := 0%float;
       standardDeviation := 0%float;
       coefficientOfVariation := None;
       slope := 0%float;
       rSquared := None;
       interpretation :=
         {| volatility := volatility_undefined; trend := trend_undefined |} |}.
Proof.
  destruct (@empty_and_all_missing_series float binary64) as [Hempty Hmissing].
  rewrite (Hmissing [None; None]).
  - exact Hempty.
  - repeat constructor.
Defined.

(** ** Exact arithmetic *)

(** Unfolds the operations of the interface at the instance [exact]. *)
Ltac exact_ops :=
  unfold gtb, geb in *;
  cbn [zero one add sub mul div sqrt abs floor ceil eqb ltb leb of_nat lit
       to_index undefined_arith exact] in *.

Section ExactArithmetic.

Local Open Scope R_scope.

Lemma eqb_exact (x y : R) : Exact.eqb x y = true <-> x = y.
Proof. unfold Exact.eqb. destruct (Req_dec_T x y); split; congruence. Qed.

Lemma eqb_exact_false (x y : R) : Exact.eqb x y = false <-> x <> y.
Proof. unfold Exact.eqb. destruct (Req_dec_T x y); split; congruence. Qed.

Lemma ltb_exact (x y : R) : Exact.ltb x y = true <-> x < y.
Proof. unfold Exact.ltb. destruct (Rlt_dec x y); split; congruence. Qed.

Lemma ltb_exact_false (x y : R) : Exact.ltb x y = false <-> y <= x.
Proof.
  unfold Exact.ltb. destruct (Rlt_dec x y); split; intro; try congruence; lra.
Qed.

Lemma leb_exact (x y : R) : Exact.leb x y = true <-> x <= y.
Proof. unfold Exact.leb. destruct (Rle_dec x y); split; congruence. Qed.

Lemma leb_exact_false (x y : R) : Exact.leb x y = false <-> y < x.
Proof.
  unfold Exact.leb. destruct (Rle_dec x y); split; intro; try congruence; lra.
Qed.

(** *** Sums *)

Lemma fold_left_Rsum {A : Type} (f : A -> R) (l : list A) (acc : R) :
  fold_left (fun a e => a + f e) l acc = acc + Rsum f l.
Proof.
  revert acc. induction l as [|e rest IH]; intro acc; cbn.
  - lra.
  - rewrite IH. lra.
Qed.

Lemma Rsum_ext {A : Type} (f g : A -> R) (l : list A) :
  (forall a, In a l -> f a = g a) -> Rsum f l = Rsum g l.
Proof.
  induction l as [|e rest IH]; intro Hfg; cbn.
  - reflexivity.
  - rewrite (Hfg e) by (cbn; auto).
    rewrite IH; [reflexivity|].
    intros a Ha. apply Hfg. cbn. auto.
Qed.


Lemma Rsum_squares_nonneg {A : Type} (f : A -> R) (l : list A) :
  0 <= Rsum (fun a => f a * f a) l.
Proof.
  induction l as [|e rest IH]; cbn.
  - lra.
  - pose proof (Rle_0_sqr (f e)) as Hsq. unfold Rsqr in Hsq. lra.
Qed.

Lemma Rsum_squares_zero {A : Type} (f : A -> R) (l : list A) :
  Rsum (fun a => f a * f a) l = 0 <-> forall a, In a l -> f a = 0.
Proof.
  induction l as [|e rest IH]; cbn.
  - split; [tauto | reflexivity].
  - pose proof (Rle_0_sqr (f e)) as Hsq. unfold Rsqr in Hsq.
    pose proof (Rsum_squares_nonneg f rest) as Hrest.
    split.
    + intros Hsum a [<- | Ha].
      * assert (Hz : f e * f e = 0) by lra.
        apply Rmult_integral in Hz. tauto.
      * apply IH; [lra | exact Ha].
    + intro Hall.
      rewrite (Hall e) by auto.
      assert (Hr : Rsum (fun a => f a * f a) rest = 0) by (apply IH; auto).
      lra.
Qed.

(** Expansion of a sum of squares of [alpha + beta * x + gamma * y] into the
    five sums of the regression and the number of points. *)
Lemma Rsum_quadratic {A : Type} (x y : A -> R) (alpha beta gamma : R)
      (l : list A) :
  Rsum (fun p => (alpha + beta * x p + gamma * y p)
                 * (alpha + beta * x p + gamma * y p)) l =
    INR (length l) * alpha * alpha
    + beta * beta * Rsum (fun p => x p * x p) l
    + gamma * gamma * Rsum (fun p => y p * y p) l
    + 2 * alpha * beta * Rsum x l
    + 2 * alpha * gamma * Rsum y l
    + 2 * beta * gamma * Rsum (fun p => x p * y p) l.
Proof.
  induction l as [|e rest IH].
  - cbn. lra.
  - cbn [Rsum length]. rewrite IH, S_INR. ring.
Qed.

(** The least-squares identity: with the fitted slope and intercept, the
    total sum of squares exceeds the residual one by [slope^2 * D / n]. *)
Lemma least_squares_identity (n Sx Sy Sxy Sxx Syy : R) :
  n <> 0 -> n * Sxx - Sx * Sx <> 0 ->
  let D := n * Sxx - Sx * Sx in
  let b := (n * Sxy - Sx * Sy) / D in
  let a := (Sy - b * Sx) / n in
  let m := Sy / n in
  (n * m * m + Syy - 2 * m * Sy)
  - (n * a * a + b * b * Sxx + Syy + 2 * a * b * Sx - 2 * a * Sy - 2 * b * Sxy)
  = b * b * (D / n).
Proof. intros Hn HD. cbv zeta. field. split; assumption. Qed.

(** *** The engine over the reals, as sums *)

Lemma varianceSumOf_exact (indexedValues : list (Entry R)) :
  varianceSumOf indexedValues =
    Rsum (fun e => (value e - meanOf indexedValues)
                   * (value e - meanOf indexedValues)) indexedValues.
Proof.
  unfold varianceSumOf. exact_ops.
  rewrite (fold_left_Rsum
             (fun e => (value e - meanOf indexedValues)
                       * (value e - meanOf indexedValues))).
  lra.
Qed.

Lemma sumsOf_exact (points : list (Entry R * R)) :
  sumsOf points =
    {| sumX := Rsum xOf points;
       sumY := Rsum yOf points;
       sumXY := Rsum (fun p => xOf p * yOf p) points;
       sumXX := Rsum (fun p => xOf p * xOf p) points |}.
Proof.
  unfold sumsOf. exact_ops.
  set (step := fun (s : Sums R) (p : Entry R * R) =>
         {| sumX := sumX s + INR (index (fst p));
            sumY := sumY s + snd p;
            sumXY := sumXY s + INR (index (fst p)) * snd p;
            sumXX := sumXX s + INR (index (fst p)) * INR (index (fst p)) |}).
  assert (Hgen : forall s0,
             fold_left step points s0 =
               {| sumX := sumX s0 + Rsum xOf points;
                  sumY := sumY s0 + Rsum yOf points;
                  sumXY := sumXY s0 + Rsum (fun p => xOf p * yOf p) points;
                  sumXX := sumXX s0 + Rsum (fun p => xOf p * xOf p) points |}).
  { induction points as [|p rest IH]; intro s0.
    - destruct s0; cbn. f_equal; lra.
    - cbn [fold_left Rsum]. rewrite IH. unfold step at 2, xOf, yOf. cbn.
      f_equal; lra. }
  rewrite Hgen. cbn. f_equal; lra.
Qed.

Lemma ssTotalOf_exact (indexedValues : list (Entry R)) :
  ssTotalOf indexedValues =
    Rsum (fun p => (yOf p - meanYOf indexedValues)
                   * (yOf p - meanYOf indexedValues))
         (regressionPoints indexedValues).
Proof.
  unfold ssTotalOf. exact_ops.
  rewrite (fold_left_Rsum
             (fun p : Entry R * R =>
                (snd p - meanYOf indexedValues) * (snd p - meanYOf indexedValues))).
  unfold yOf. lra.
Qed.

Lemma ssResidualOf_exact (indexedValues : list (Entry R)) :
  ssResidualOf indexedValues =
    Rsum (fun p =>
            (yOf p - (slopeOf indexedValues * xOf p + interceptOf indexedValues))
            * (yOf p - (slopeOf indexedValues * xOf p + interceptOf indexedValues)))
         (regressionPoints indexedValues).
Proof.
  unfold ssResidualOf. exact_ops.
  rewrite (fold_left_Rsum
             (fun p : Entry R * R =>
                (snd p - (slopeOf indexedValues * INR (index (fst p))
                          + interceptOf indexedValues))
                * (snd p - (slopeOf indexedValues * INR (index (fst p))
                            + interceptOf indexedValues)))).
  unfold yOf, xOf. lra.
Qed.



(** The regression denominator is [n] times the sum of squared deviations
    of the indices from their mean. *)
Lemma denominatorOf_exact (indexedValues : list (Entry R)) :
  indexedValues <> [] ->
  let points := regressionPoints indexedValues in
  let n := INR (length indexedValues) in
  denominatorOf indexedValues =
    n * Rsum (fun p => (xOf p - Rsum xOf points / n)
                       * (xOf p - Rsum xOf points / n)) points.
Proof.
  intros Hne points n.
  assert (Hn : n <> 0).
  { subst n. destruct indexedValues; [congruence|].
    apply not_0_INR. cbn. lia. }
  unfold denominatorOf. fold points. rewrite sumsOf_exact. exact_ops.
  cbn [sumX sumXX]. fold n.
  rewrite (Rsum_ext (fun p => (xOf p - Rsum xOf points / n)
                              * (xOf p - Rsum xOf points / n))
                    (fun p => (- (Rsum xOf points / n) + 1 * xOf p + 0 * yOf p)
                              * (- (Rsum xOf points / n) + 1 * xOf p + 0 * yOf p)))
    by (intros; ring).
  rewrite Rsum_quadratic.
  replace (length points) with (length indexedValues)
    by (symmetry; apply regressionPoints_length).
  fold n. field. exact Hn.
Qed.

Lemma denominatorOf_nonneg (indexedValues : list (Entry R)) :
  0 <= denominatorOf indexedValues.
Proof.
  destruct indexedValues as [|e rest] eqn:Hiv.
  - unfold denominatorOf, regressionPoints. cbn. lra.
  - rewrite <- Hiv. rewrite denominatorOf_exact by congruence.
    cbv zeta. apply Rmult_le_pos; [apply pos_INR|].
    apply (Rsum_squares_nonneg
             (fun p => xOf p - Rsum xOf (regressionPoints indexedValues)
                                / INR (length indexedValues))).
Qed.

Lemma denominator_nonzero_nonempty (indexedValues : list (Entry R)) :
  denominatorOf indexedValues <> 0 -> INR (length indexedValues) <> 0.
Proof.
  destruct indexedValues as [|e rest]; intro HD.
  - exfalso. apply HD. unfold denominatorOf, regressionPoints. cbn. lra.
  - apply not_0_INR. cbn. lia.
Qed.

(** Total minus residual sum of squares is [slope^2 * denominator / n^2]
    times [n]: the part of the variation the fitted line explains. *)
Lemma explained_sum_of_squares (indexedValues : list (Entry R)) :
  denominatorOf indexedValues <> 0 ->
  ssTotalOf indexedValues - ssResidualOf indexedValues =
    slopeOf indexedValues * slopeOf indexedValues
    * (denominatorOf indexedValues / INR (length indexedValues)).
Proof.
  intro HD.
  pose proof (denominator_nonzero_nonempty indexedValues HD) as Hn.
  rewrite ssTotalOf_exact, ssResidualOf_exact.
  set (points := regressionPoints indexedValues).
  set (m := meanYOf indexedValues).
  set (b := slopeOf indexedValues).
  set (a := interceptOf indexedValues).
  rewrite (Rsum_ext (fun p => (yOf p - m) * (yOf p - m))
                    (fun p => (- m + 0 * xOf p + 1 * yOf p)
                              * (- m + 0 * xOf p + 1 * yOf p)))
    by (intros; ring).
  rewrite (Rsum_ext (fun p => (yOf p - (b * xOf p + a)) * (yOf p - (b * xOf p + a)))
                    (fun p => (- a + (- b) * xOf p + 1 * yOf p)
                              * (- a + (- b) * xOf p + 1 * yOf p)))
    by (intros; ring).
  rewrite !Rsum_quadratic.
  replace (length points) with (length indexedValues)
    by (symmetry; apply regressionPoints_length).
  set (n := INR (length indexedValues)) in *.
  set (Sx := Rsum xOf points).
  set (Sy := Rsum yOf points).
  set (Sxy := Rsum (fun p => xOf p * yOf p) points).
  set (Sxx := Rsum (fun p => xOf p * xOf p) points).
  set (Syy := Rsum (fun p => yOf p * yOf p) points).
  assert (HDeq : denominatorOf indexedValues = n * Sxx - Sx * Sx).
  { unfold denominatorOf. fold points. rewrite sumsOf_exact. reflexivity. }
  assert (Hb : b = (n * Sxy - Sx * Sy) / (n * Sxx - Sx * Sx)).
  { subst b. unfold slopeOf. fold points. rewrite HDeq, sumsOf_exact.
    exact_ops. cbn [sumX sumY sumXY sumXX].
    fold Sx Sy Sxy Sxx n.
    destruct (Exact.eqb (n * Sxx - Sx * Sx) 0) eqn:Heq; [|reflexivity].
    apply eqb_exact in Heq. rewrite HDeq in HD. contradiction. }
  assert (Ha : a = (Sy - b * Sx) / n).
  { subst a. unfold interceptOf. fold points b. rewrite sumsOf_exact.
    reflexivity. }
  assert (Hm : m = Sy / n).
  { subst m. unfold meanYOf. fold points. rewrite sumsOf_exact. reflexivity. }
  rewrite HDeq in *.
  pose proof (least_squares_identity n Sx Sy Sxy Sxx Syy Hn HD) as Hid.
  cbv zeta in Hid. rewrite <- Hb in Hid. rewrite <- Ha, <- Hm in Hid.
  rewrite <- Hid. ring.
Qed.


(** Two observations have distinct indices, so the regression denominator
    is not 0. *)
Lemma denominatorOf_positive (indexedValues : list (Entry R)) :
  StronglySorted (fun a b : Entry R => (index a < index b)%nat) indexedValues ->
  (2 <= length indexedValues)%nat ->
  0 < denominatorOf indexedValues.
Proof.
  intros Hsorted Hn.
  pose proof (denominatorOf_nonneg indexedValues) as H0.
  destruct (Req_dec_T (denominatorOf indexedValues) 0) as [Hz|Hnz]; [|lra].
  exfalso.
  assert (Hne : indexedValues <> [])
    by (destruct indexedValues; [cbn in Hn; exfalso; lia | discriminate]).
  rewrite (denominatorOf_exact indexedValues Hne) in Hz. cbv zeta in Hz.
  apply Rmult_integral in Hz. destruct Hz as [Hz|Hz].
  - destruct indexedValues; [congruence|].
    revert Hz. apply not_0_INR. cbn. lia.
  - pose proof (proj1 (Rsum_squares_zero
                         (fun p => xOf p - Rsum xOf (regressionPoints indexedValues)
                                            / INR (length indexedValues))
                         (regressionPoints indexedValues)) Hz) as Hall.
    pose proof (regressionPoints_fst indexedValues) as Hfst.
    destruct indexedValues as [|e1 [|e2 rest]]; cbn in Hn; try lia.
    destruct (regressionPoints (e1 :: e2 :: rest)) as [|p1 [|p2 points]];
      cbn in Hfst; try discriminate.
    injection Hfst as Hp1 Hp2 _.
    pose proof (Hall p1 (or_introl eq_refl)) as H1.
    pose proof (Hall p2 (or_intror (or_introl eq_refl))) as H2.
    cbv beta in H1, H2. unfold xOf in H1, H2. rewrite Hp1, Hp2 in *.
    assert (Heq : INR (index e1) = INR (index e2)) by lra.
    apply INR_eq in Heq.
    inversion Hsorted as [|? ? _ Hlt]; subst.
    inversion Hlt as [|? ? Hlt12 _]; subst. lia.
Qed.





(** *** A perfect linear fit below twenty observations *)

Lemma Rsum_affine {A : Type} (f g : A -> R) (c0 c1 c2 : R) (l : list A) :
  Rsum (fun p => c0 + c1 * f p + c2 * g p) l =
    INR (length l) * c0 + c1 * Rsum f l + c2 * Rsum g l.
Proof.
  induction l as [|e rest IH].
  - cbn. lra.
  - cbn [Rsum length]. rewrite IH, S_INR. ring.
Qed.

Lemma perfect_linear_fit (indexedValues : list (Entry R)) (a b : R) :
  StronglySorted (fun e e' : Entry R => (index e < index e')%nat) indexedValues ->
  (2 <= length indexedValues < 20)%nat ->
  b <> 0 ->
  (forall e, In e indexedValues -> value e = a + b * INR (index e)) ->
  slopeOf indexedValues = b /\ rSquaredOf indexedValues = Some 1.
Proof.
  intros Hsorted [Hn2 Hn20] Hb Hfit.
  pose proof (denominatorOf_positive indexedValues Hsorted Hn2) as HDpos.
  assert (HD : denominatorOf indexedValues <> 0) by lra.
  pose proof (denominator_nonzero_nonempty indexedValues HD) as Hn.
  pose proof (regressionPoints_small indexedValues Hn20) as Hpoints.
  pose proof (regressionPoints_length indexedValues) as Hlen.
  set (points := regressionPoints indexedValues) in *.
  set (n := INR (length indexedValues)) in *.
  assert (Hy : forall p, In p points -> yOf p = a + b * xOf p).
  { intros p Hp. rewrite Hpoints in Hp. apply in_map_iff in Hp.
    destruct Hp as [e [<- He]]. unfold yOf, xOf. cbn. apply Hfit, He. }
  set (Sx := Rsum xOf points).
  set (Sxx := Rsum (fun p => xOf p * xOf p) points).
  assert (HSy : Rsum yOf points = n * a + b * Sx).
  { rewrite (Rsum_ext yOf (fun p => a + b * xOf p + 0 * xOf p))
      by (intros p Hp; rewrite (Hy p Hp); ring).
    rewrite Rsum_affine, Hlen. fold n Sx. ring. }
  assert (HSxy : Rsum (fun p => xOf p * yOf p) points = a * Sx + b * Sxx).
  { rewrite (Rsum_ext (fun p => xOf p * yOf p)
                      (fun p => 0 + a * xOf p + b * (xOf p * xOf p)))
      by (intros p Hp; rewrite (Hy p Hp); ring).
    rewrite Rsum_affine. fold Sx Sxx. ring. }
  assert (HDeq : denominatorOf indexedValues = n * Sxx - Sx * Sx).
  { unfold denominatorOf. fold points. rewrite sumsOf_exact. reflexivity. }
  assert (Hslope : slopeOf indexedValues = b).
  { unfold slopeOf. fold points. rewrite sumsOf_exact. exact_ops.
    cbn [sumX sumY sumXY sumXX].
    destruct (Exact.eqb (denominatorOf indexedValues) 0) eqn:Heq;
      [apply eqb_exact in Heq; contradiction|].
    rewrite HSy, HSxy, HDeq. fold n Sx. field. rewrite <- HDeq. exact HD. }
  assert (Hintercept : interceptOf indexedValues = a).
  { unfold interceptOf. fold points. rewrite Hslope, sumsOf_exact. exact_ops.
    cbn [sumX sumY]. rewrite HSy. fold n Sx. field. exact Hn. }
  assert (Hres : ssResidualOf indexedValues = 0).
  { rewrite ssResidualOf_exact, Hslope, Hintercept. fold points.
    apply (Rsum_squares_zero (fun p => yOf p - (b * xOf p + a))).
    intros p Hp. rewrite (Hy p Hp). ring. }
  assert (Htot : 0 < ssTotalOf indexedValues).
  { pose proof (explained_sum_of_squares indexedValues HD) as Hexp.
    rewrite Hres, Hslope in Hexp. fold n in Hexp.
    assert (Hbb : 0 < b * b) by nra.
    assert (Hfrac : 0 < denominatorOf indexedValues / n).
    { apply Rmult_lt_0_compat; [lra|]. apply Rinv_0_lt_compat.
      pose proof (pos_INR (length indexedValues)) as Hpos. fold n in Hpos. lra. }
    pose proof (Rmult_lt_0_compat _ _ Hbb Hfrac). lra. }
  split; [exact Hslope|].
  unfold rSquaredOf. exact_ops.
  destruct (Exact.eqb (denominatorOf indexedValues) 0) eqn:Heq;
    [apply eqb_exact in Heq; contradiction|].
  destruct (Exact.eqb (ssTotalOf indexedValues) 0) eqn:Heq';
    [apply eqb_exact in Heq'; lra|].
  cbn [negb]. rewrite Hres. f_equal. field. lra.
Qed.

(** *** quantile over the reals *)

Lemma to_index_exact (z : Z) :
  (0 <= z)%Z -> Exact.to_index (IZR z) = Some (Z.to_nat z).
Proof.
  intro Hz. unfold Exact.to_index. rewrite ZfloorZ.
  destruct (Req_dec_T (IZR z) (IZR z)) as [_|Hneq]; [|congruence].
  destruct (0 <=? z)%Z eqn:Hle; [reflexivity|].
  apply Z.leb_gt in Hle. lia.
Qed.

Lemma position_bounds (n : nat) (q : R) :
  (1 <= n)%nat -> 0 < q < 1 ->
  let position := INR (n - 1) * q in
  (0 <= Zfloor position <= Z.of_nat n - 1)%Z
  /\ (0 <= Zceil position <= Z.of_nat n - 1)%Z.
Proof.
  intros Hn Hq position.
  assert (Hm : 0 <= INR (n - 1)) by apply pos_INR.
  assert (H0 : 0 <= position) by (unfold position; nra).
  assert (H1 : position <= INR (n - 1)) by (unfold position; nra).
  rewrite INR_IZR_INZ in H1.
  replace (Z.of_nat (n - 1)) with (Z.of_nat n - 1)%Z in H1 by lia.
  pose proof (Zfloor_bound position) as [Hf1 Hf2].
  pose proof (Zceil_bound position) as [Hc1 Hc2].
  repeat split.
  - apply Zfloor_lub. exact H0.
  - apply le_IZR. lra.
  - apply le_IZR. lra.
  - assert (Hlt : (Zceil position < Z.of_nat n - 1 + 1)%Z).
    { apply lt_IZR. rewrite plus_IZR. lra. }
    lia.
Qed.

(** Strictly between 0 and 1 both array reads of [quantile] are in range. *)
Lemma quantile_exact_reads (sorted : list R) (q : R) :
  sorted <> [] -> 0 < q < 1 ->
  let position := INR (length sorted - 1) * q in
  exists lower upper,
    nth_error sorted (Z.to_nat (Zfloor position)) = Some lower
    /\ nth_error sorted (Z.to_nat (Zceil position)) = Some upper
    /\ quantile sorted q
       = lower + (upper - lower) * (position - IZR (Zfloor position)).
Proof.
  intros Hne Hq position.
  assert (Hn : (1 <= length sorted)%nat)
    by (destruct sorted; [congruence | cbn; lia]).
  destruct (position_bounds (length sorted) q Hn Hq) as [Hfl Hce].
  fold position in Hfl, Hce.
  destruct (nth_error sorted (Z.to_nat (Zfloor position))) as [lower|] eqn:Hlo.
  2:{ apply nth_error_None in Hlo. lia. }
  destruct (nth_error sorted (Z.to_nat (Zceil position))) as [upper|] eqn:Hup.
  2:{ apply nth_error_None in Hup. lia. }
  exists lower, upper. repeat split.
  unfold quantile. exact_ops.
  destruct (Nat.eqb (length sorted) 0) eqn:Hlen;
    [apply Nat.eqb_eq in Hlen; lia|].
  destruct (Exact.leb q 0) eqn:Hq0; [apply leb_exact in Hq0; lra|].
  destruct (Exact.leb 1 q) eqn:Hq1; [apply leb_exact in Hq1; lra|].
  fold position. unfold at_key, Exact.floor, Exact.ceil. exact_ops.
  rewrite !to_index_exact by lia. rewrite Hlo, Hup. reflexivity.
Qed.

Lemma quantile_exact_low (sorted : list R) (q first : R) :
  nth_error sorted 0 = Some first -> q <= 0 -> quantile sorted q = first.
Proof.
  intros Hfirst Hq. unfold quantile. exact_ops.
  destruct sorted as [|x rest]; [discriminate|]. cbn [length Nat.eqb].
  apply leb_exact in Hq. rewrite Hq, Hfirst. reflexivity.
Qed.

Lemma quantile_exact_high (sorted : list R) (q last : R) :
  nth_error sorted (length sorted - 1) = Some last -> 1 <= q ->
  quantile sorted q = last.
Proof.
  intros Hlast Hq. unfold quantile. exact_ops.
  destruct sorted as [|x rest]; [discriminate|].
  cbn [Nat.eqb]. change (length (x :: rest)) with (S (length rest)) in *.
  cbn [Nat.eqb].
  destruct (Exact.leb q 0) eqn:Hq0; [apply leb_exact in Hq0; lra|].
  apply leb_exact in Hq. rewrite Hq, Hlast. reflexivity.
Qed.

Lemma quantile_exact_single (x q : R) : quantile [x] q = x.
Proof.
  destruct (Rle_dec q 0) as [Hq0|Hq0].
  - apply quantile_exact_low; [reflexivity | exact Hq0].
  - destruct (Rle_dec 1 q) as [Hq1|Hq1].
    + apply quantile_exact_high; [reflexivity | exact Hq1].
    + destruct (quantile_exact_reads [x] q) as [lower [upper [Hlo [Hup Hval]]]];
        [discriminate | lra |].
      cbn [length Nat.sub INR] in *. rewrite Rmult_0_l in *.
      change 0 with (IZR 0) in Hlo, Hup.
      unfold Zceil in Hup. rewrite <- opp_IZR in Hup. cbn [Z.opp] in Hup.
      rewrite ZfloorZ in Hlo, Hup. cbn in Hlo, Hup.
      rewrite Hval. injection Hlo as <-. injection Hup as <-. ring.
Qed.

(** *** clamp and the sorted copy *)

Lemma clamp_exact_range (v lowerBound upperBound : R) :
  lowerBound <= upperBound ->
  lowerBound <= clamp v lowerBound upperBound <= upperBound.
Proof.
  intro Hbounds. unfold clamp. exact_ops.
  destruct (Exact.ltb v lowerBound) eqn:Hlo.
  - lra.
  - apply ltb_exact_false in Hlo.
    destruct (Exact.ltb upperBound v) eqn:Hhi.
    + lra.
    + apply ltb_exact_false in Hhi. lra.
Qed.

Lemma insert_sorted_exact_perm (v : R) (sorted : list R) :
  Permutation (v :: sorted) (insert_sorted v sorted).
Proof.
  induction sorted as [|w rest IH]; cbn.
  - apply Permutation_refl.
  - exact_ops. destruct (Exact.ltb 0 (v - w)).
    + apply perm_trans with (w :: v :: rest); [apply perm_swap|].
      apply perm_skip, IH.
    + apply Permutation_refl.
Qed.

Lemma insert_sorted_exact_sorted (v : R) (sorted : list R) :
  Sorted Rle sorted -> Sorted Rle (insert_sorted v sorted).
Proof.
  induction 1 as [|w rest Hrest IH Hhd]; cbn.
  - repeat constructor.
  - exact_ops. destruct (Exact.ltb 0 (v - w)) eqn:Hcmp.
    + apply ltb_exact in Hcmp. constructor; [exact IH|].
      destruct rest as [|u rest']; cbn.
      * constructor. lra.
      * exact_ops. inversion Hhd; subst.
        destruct (Exact.ltb 0 (v - u)); constructor; [assumption | lra].
    + apply ltb_exact_false in Hcmp.
      constructor; [constructor; assumption|]. constructor. lra.
Qed.

Lemma toSorted_exact (values : list R) :
  Permutation values (toSorted values) /\ Sorted Rle (toSorted values).
Proof.
  unfold toSorted. induction values as [|v rest [IHp IHs]]; cbn.
  - split; constructor.
  - split.
    + apply perm_trans with (v :: fold_right insert_sorted [] rest).
      * apply perm_skip, IHp.
      * apply insert_sorted_exact_perm.
    + apply insert_sorted_exact_sorted, IHs.
Qed.




End ExactArithmetic.

(** ** rSquared: when it is null, and its range *)






(** C10.  In binary64 the claim fails by rounding: on the series
    0, 50000000, 50000001, 0 the residual sum of squares is computed as
    2500000050000001 and the total one as 2500000050000000.5, and the
    returned rSquared is -2^-52, below 0. *)
Theorem rSquared_binary64_below_zero :
  let values := [Some 0; Some 50000000; Some 50000001; Some 0]%float in
  let indexedValues := indexedValuesOf values in
  ssTotalOf indexedValues = 2500000050000000.5%float
  /\ ssResidualOf indexedValues = 2500000050000001%float
  /\ rSquared (computeLineChartAnalysis values) = Some (-0x1p-52)%float
  /\ ((-0x1p-52)%float <? zero)%num = true.
Proof. cbv zeta. repeat split; vm_compute; reflexivity. Qed.

(** ** quantile and winsorize *)

(** C4, amended.  [quantile] returns 0 on the empty sequence whatever q; on
    a non-empty sequence the first element when q <= 0 and the last when
    q >= 1 (so at q = 0 and q = 1); on a single element that element, when
    the element is finite and q is not NaN; and otherwise
    lower + (upper - lower) * (position - floor(position)) with
    position = (n - 1) * q and lower, upper the elements at floor(position)
    and ceil(position).

    In every arithmetic: the empty, q <= 0 and q >= 1 cases (q >= 1 is
    tested once q <= 0 has failed), and the interpolation formula given the
    two elements read.  In binary64: a single finite element is returned
    for every q that is not NaN.  Over the reals: all of it, the two reads
    always being in range. *)
Theorem quantile_contract :
  (forall (num : Type) (N : Number num) (sorted : list num) (q : num),
      (sorted = [] -> quantile sorted q = zero)
      /\ (forall first, nth_error sorted 0 = Some first ->
                        (q <=? zero)%num = true -> quantile sorted q = first)
      /\ (forall last, nth_error sorted (length sorted - 1) = Some last ->
                       (q <=? zero)%num = false -> (q >=? one)%num = true ->
                       quantile sorted q = last)
      /\ (forall lower upper,
            let position := (of_nat (length sorted - 1) * q)%num in
            sorted <> [] ->
            (q <=? zero)%num = false -> (q >=? one)%num = false ->
            at_key sorted (floor position) = Some lower ->
            at_key sorted (ceil position) = Some upper ->
            quantile sorted q
            = (lower + (upper - lower) * (position - floor position))%num))
  /\ (forall x q : float,
        PrimFloat.is_finite x = true -> PrimFloat.is_nan q = false ->
        (quantile [x] q =? x)%float = true)
  /\ (forall (sorted : list R) (q first last : R),
        nth_error sorted 0 = Some first ->
        nth_error sorted (length sorted - 1) = Some last ->
        (q <= 0 -> quantile sorted q = first)%R
        /\ (1 <= q -> quantile sorted q = last)%R
        /\ quantile sorted 0%R = first
        /\ quantile sorted 1%R = last
        /\ (length sorted = 1 -> quantile sorted q = first)
        /\ (0 < q < 1 ->
            let position := INR (length sorted - 1) * q in
            exists lower upper,
              nth_error sorted (Z.to_nat (Zfloor position)) = Some lower
              /\ nth_error sorted (Z.to_nat (Zceil position)) = Some upper
              /\ quantile sorted q
                 = lower + (upper - lower) * (position - IZR (Zfloor position)))%R).
Proof.
  split; [|split].
  - intros num N sorted q. repeat split.
    + intros ->. reflexivity.
    + intros first Hfirst Hq. unfold quantile.
      destruct sorted as [|x rest]; [discriminate|].
      cbn [length Nat.eqb]. rewrite Hq, Hfirst. reflexivity.
    + intros last Hlast Hq0 Hq1. unfold quantile.
      destruct sorted as [|x rest]; [discriminate|].
      change (length (x :: rest)) with (S (length rest)) in *.
      cbn [Nat.eqb]. rewrite Hq0, Hq1, Hlast. reflexivity.
    + intros lower upper position Hne Hq0 Hq1 Hlo Hup. unfold quantile.
      destruct sorted as [|x rest]; [congruence|].
      change (length (x :: rest)) with (S (length rest)) in *.
      cbn [Nat.eqb]. rewrite Hq0, Hq1. fold position. rewrite Hlo, Hup.
      reflexivity.
  - apply quantile_binary64_single.
  - intros sorted q first last Hfirst Hlast. repeat split.
    + apply quantile_exact_low, Hfirst.
    + apply quantile_exact_high, Hlast.
    + apply (quantile_exact_low sorted 0%R first Hfirst). lra.
    + apply (quantile_exact_high sorted 1%R last Hlast). lra.
    + intro Hlen. destruct sorted as [|x [|y rest]]; try discriminate.
      cbn in Hfirst. injection Hfirst as <-. apply quantile_exact_single.
    + intro Hq. apply quantile_exact_reads; [|exact Hq].
      destruct sorted; [discriminate | discriminate].
Qed.

Lemma quantile_contract_witness :
  (quantile [10; 20; 30] 0 = 10 /\ quantile [10; 20; 30] 1 = 30
   /\ quantile [10; 20; 30] (-1) = 10 /\ quantile [10; 20; 30] 2 = 30)%R.
Proof.
  destruct quantile_contract as [_ [_ Hexact]].
  destruct (Hexact [10; 20; 30]%R (-1)%R 10%R 30%R eq_refl eq_refl)
    as [Hlow [_ [H0 [H1 _]]]].
  destruct (Hexact [10; 20; 30]%R 2%R 10%R 30%R eq_refl eq_refl)
    as [_ [Hhigh _]].
  repeat split; [exact H0 | exact H1 | apply Hlow; lra | apply Hhigh; lra].
Defined.

(** C4 as stated fails on a single element in binary64: at a NaN quantile
    value neither bound test holds and both reads are out of range, and on
    the element Infinity the interpolation computes Infinity - Infinity; in
    both cases the result is NaN, not the element. *)
Lemma quantile_single_element_not_returned :
  PrimFloat.is_nan (quantile [42%float] PrimFloat.nan) = true
  /\ (quantile [42%float] PrimFloat.nan =? 42)%float = false
  /\ PrimFloat.is_nan (quantile [PrimFloat.infinity] 0.5%float) = true
  /\ (quantile [PrimFloat.infinity] 0.5%float =? PrimFloat.infinity)%float = false.
Proof. repeat split; vm_compute; reflexivity. Qed.

Lemma insert_sorted_permutation {num : Type} {N : Number num}
      (v : num) (sorted : list num) :
  Permutation (v :: sorted) (insert_sorted v sorted).
Proof.
  induction sorted as [|w rest IH]; cbn [insert_sorted].
  - apply Permutation_refl.
  - destruct ((v - w) >? zero)%num.
    + apply perm_trans with (w :: v :: rest); [apply perm_swap|].
      apply perm_skip, IH.
    + apply Permutation_refl.
Qed.

Lemma toSorted_permutation {num : Type} {N : Number num} (values : list num) :
  Permutation values (toSorted values).
Proof.
  unfold toSorted. induction values as [|v rest IH]; cbn [fold_right].
  - constructor.
  - apply perm_trans with (v :: fold_right insert_sorted [] rest).
    + apply perm_skip, IH.
    + apply insert_sorted_permutation.
Qed.

(** C5, amended.  For a list v of numbers (no element is NaN: each is equal
    to itself) [winsorize] keeps the length, and its i-th element is L when
    v[i] < L, else U when v[i] > U, else v[i], where
    L = quantile(sorted(v), lq), U = quantile(sorted(v), uq) and sorted(v)
    is a rearrangement of v: the order of the input is kept (in every
    arithmetic).  When L <= U every output element lies in [L, U]: in
    binary64 and over the reals, where the sorted copy is shown to be the
    ascending rearrangement.  In binary64 the sorted copy of
    5, 1, 100, 3, 2 is 1, 2, 3, 5, 100 and its winsorization between the
    quartiles is 5, 2, 5, 3, 2. *)
Theorem winsorize_contract :
  (forall (num : Type) (N : Number num) (v : list num) (lq uq : num),
      let L := quantile (toSorted v) lq in
      let U := quantile (toSorted v) uq in
      Forall (fun x => (x =? x)%num = true) v ->
      length (winsorize v lq uq) = length v
      /\ (forall i, nth_error (winsorize v lq uq) i
                    = option_map (fun x => if (x <? L)%num then L
                                           else if (x >? U)%num then U
                                           else x)
                                 (nth_error v i))
      /\ Permutation v (toSorted v))
  /\ (forall (v : list float) (lq uq : float),
        let L := quantile (toSorted v) lq in
        let U := quantile (toSorted v) uq in
        Forall (fun x => PrimFloat.is_nan x = false) v ->
        (L <=? U)%float = true ->
        Forall (fun w => (L <=? w)%float = true /\ (w <=? U)%float = true)
               (winsorize v lq uq))
  /\ (forall (v : list R) (lq uq : R),
        let L := quantile (toSorted v) lq in
        let U := quantile (toSorted v) uq in
        Permutation v (toSorted v) /\ Sorted Rle (toSorted v)
        /\ ((L <= U)%R ->
            forall w, In w (winsorize v lq uq) -> (L <= w <= U)%R))
  /\ (toSorted [5; 1; 100; 3; 2]%float = [1; 2; 3; 5; 100]%float
      /\ winsorize [5; 1; 100; 3; 2]%float 0.25%float 0.75%float
         = [5; 2; 5; 3; 2]%float).
Proof.
  split; [|split; [|split]].
  - intros num N v lq uq L U _. split; [|split].
    + apply winsorize_length.
    + intro i. rewrite winsorize_nth_error. reflexivity.
    + apply toSorted_permutation.
  - intros v lq uq L U Hnumbers Hbounds.
    unfold winsorize. fold L U. apply Forall_map.
    apply Forall_impl with (2 := Hnumbers).
    intros x Hx. apply clamp_binary64_range; assumption.
  - intros v lq uq L U.
    destruct (toSorted_exact v) as [Hperm Hsorted].
    split; [exact Hperm|]. split; [exact Hsorted|].
    intros Hbounds w Hw. unfold winsorize in Hw. apply in_map_iff in Hw.
    destruct Hw as [x [<- _]]. apply clamp_exact_range. exact Hbounds.
  - split; vm_compute; reflexivity.
Qed.

Lemma winsorize_contract_witness :
  Forall (fun w => 1 <= w <= 3)%R (winsorize [3; 1; 2] 0 1)%R.
Proof.
  apply Forall_forall.
  destruct winsorize_contract as [_ [_ [Hexact _]]].
  destruct (Hexact [3; 1; 2]%R 0%R 1%R) as [Hperm [Hsorted Hrange]].
  assert (Hs : toSorted [3; 1; 2]%R = [1; 2; 3]%R).
  { unfold toSorted. cbn. exact_ops.
    repeat match goal with
           | |- context [Exact.ltb ?a ?b] =>
               let Hb := fresh in
               destruct (Exact.ltb a b) eqn:Hb;
               [apply ltb_exact in Hb | apply ltb_exact_false in Hb];
               try (exfalso; lra); cbn
           end.
    reflexivity. }
  rewrite Hs in Hrange.
  rewrite (quantile_exact_low [1; 2; 3]%R 0%R 1%R eq_refl) in Hrange by lra.
  rewrite (quantile_exact_high [1; 2; 3]%R 1%R 3%R eq_refl) in Hrange by lra.
  apply Hrange. lra.
Defined.

(** C5 as stated fails on a list with a NaN element in binary64: every
    comparison with NaN is false, so [clamp] passes the element on.  For
    1, NaN, 3 with lq = 0 and uq = 1 (the sorted copy of this list is the
    list itself) the bounds are L = 1 <= U = 3 and the output is
    1, NaN, 3, whose second element is not within [L, U]. *)
Lemma winsorize_nan_element :
  let v := [1%float; PrimFloat.nan; 3%float] in
  let L := quantile (toSorted v) 0%float in
  let U := quantile (toSorted v) 1%float in
  L = 1%float /\ U = 3%float /\ (L <=? U)%float = true
  /\ option_map PrimFloat.is_nan (nth_error (winsorize v 0%float 1%float) 1)
     = Some true
  /\ option_map (fun w => (L <=? w)%float) (nth_error (winsorize v 0%float 1%float) 1)
     = Some false
  /\ option_map (fun w => (w <=? U)%float) (nth_error (winsorize v 0%float 1%float) 1)
     = Some false.
Proof. cbv zeta. repeat split; vm_compute; reflexivity. Qed.

(** ** The winsorization threshold and the index axis *)

(** Over the reals, fewer than twenty observations that lie on a line of
    non-zero slope are fitted exactly. *)
Lemma analysis_perfect_linear_fit (values : list (option R)) (a b : R) :
  let indexedValues := indexedValuesOf values in
  let r := computeLineChartAnalysis values in
  2 <= length indexedValues < 20 ->
  b <> 0%R ->
  (forall e, In e indexedValues -> value e = (a + b * INR (index e))%R) ->
  slope r = b /\ rSquared r = Some 1%R.
Proof.
  intros indexedValues r [Hn2 Hn20] Hb Hfit.
  subst r. rewrite (analysis_general values Hn2). cbn [slope rSquared].
  apply perfect_linear_fit with (a := a); auto.
  apply collect_increasing.
Qed.




(** C7.  The indexed values are exactly the non-missing entries, each with
    the position it has in the input, in increasing order of position (in
    every arithmetic).  So 10, null, 30, null, 50 is analysed as the values
    10, 30, 50 at the indices 0, 2, 4: slope 10 and rSquared 1, in binary64
    and over the reals, where the series 10, 30, 50 without the gaps has
    slope 20. *)
Theorem missing_entries_keep_index_spacing :
  (forall (num : Type) (N : Number num) (values : list (option num)),
      (forall e, In e (indexedValuesOf values) <->
                 nth_error values (index e) = Some (Some (value e)))
      /\ StronglySorted (fun e e' : Entry num => index e < index e')
                        (indexedValuesOf values))
  /\ (let values := [Some 10; None; Some 30; None; Some 50]%float in
      let placed := [ {| value := 10; index := 0 |};
                      {| value := 30; index := 2 |};
                      {| value := 50; index := 4 |} ]%float in
      let r := computeLineChartAnalysis values in
      indexedValuesOf values = placed
      /\ slope r = slopeOf placed /\ rSquared r = rSquaredOf placed
      /\ slope r = 10%float /\ rSquared r = Some 1%float
      /\ slope (computeLineChartAnalysis [Some 10; Some 30; Some 50]%float)
         = 20%float)
  /\ (let r := computeLineChartAnalysis
                 [Some 10; None; Some 30; None; Some 50]%R in
      slope r = 10%R /\ rSquared r = Some 1%R).
Proof.
  split; [|split].
  - intros num N values. split.
    + intro e. apply indexedValuesOf_In.
    + apply collect_increasing.
  - cbv zeta. repeat split; vm_compute; reflexivity.
  - cbv zeta.
    destruct (analysis_perfect_linear_fit
                [Some 10; None; Some 30; None; Some 50]%R 10%R 10%R)
      as [Hs Hr].
    + cbn. lia.
    + lra.
    + cbn. intros e [<-|[<-|[<-|[]]]]; cbn; lra.
    + split; assumption.
Qed.

(** ** Trend classification on concrete series *)

(** C8 as stated fails on the empty series: its standardDeviation is 0 and
    its trend is 'undefined', not 'none' (in binary64 and over the reals). *)
Lemma trend_of_empty_series :
  (let r := computeLineChartAnalysis ([] : list (option float)) in
   (standardDeviation r =? zero)%num = true
   /\ trend (interpretation r) = trend_undefined
   /\ trend (interpretation r) <> none)
  /\ (let r := computeLineChartAnalysis ([] : list (option R)) in
      standardDeviation r = 0%R
      /\ trend (interpretation r) = trend_undefined
      /\ trend (interpretation r) <> none).
Proof.
  split; cbv zeta; repeat split; try reflexivity; cbn; discriminate.
Qed.

Lemma trend_classification_witness :
  trend (interpretation
           (computeLineChartAnalysis [Some 10; Some 20; Some 30; Some 40]%float))
  = strong.
Proof.
  destruct (trend_classification [Some 10; Some 20; Some 30; Some 40]%float)
    as [_ [Hclass _]].
  - reflexivity.
  - rewrite Hclass.
    + vm_compute. reflexivity.
    + vm_compute. discriminate.
Defined.

(** ** Checked execution

    The engine run in checked arithmetic on numbers follows the run over the
    reals step for step and never meets the non-number: no division has a
    zero denominator, no square root a negative argument, no array read is
    out of range. *)

(** Unfolds the operations of the interface at [checked] and [exact]. *)
Ltac checked_ops :=
  unfold gtb, geb in *;
  cbn [zero one add sub mul div sqrt abs floor ceil eqb ltb leb of_nat lit
       to_index undefined_arith exact checked
       Checked.lift1 Checked.lift2 Checked.test2 Checked.to_index] in *.

Section CheckedExecution.

Local Open Scope R_scope.

Lemma checked_div (a b : R) :
  b <> 0 -> Checked.div (Some a) (Some b) = Some (a / b).
Proof.
  intro Hb. unfold Checked.div.
  destruct (Req_dec_T b 0); [contradiction | reflexivity].
Qed.

Lemma checked_sqrt (a : R) :
  0 <= a -> Checked.sqrt (Some a) = Some (R_sqrt.sqrt a).
Proof.
  intro Ha. unfold Checked.sqrt.
  destruct (Rlt_dec a 0); [lra | reflexivity].
Qed.

Lemma fold_left_checked {A B : Type} (f : R -> A -> R)
      (g : option R -> B -> option R) (conv : A -> B) (l : list A) (acc : R) :
  (forall x a, g (Some x) (conv a) = Some (f x a)) ->
  fold_left g (map conv l) (Some acc) = Some (fold_left f l acc).
Proof.
  intro Hstep. revert acc. induction l as [|a rest IH]; intro acc; cbn.
  - reflexivity.
  - rewrite Hstep. apply IH.
Qed.

Lemma sum_checked (numbers : list R) :
  sum (map Some numbers) = Some (sum numbers).
Proof.
  unfold sum.
  apply (fold_left_checked (fun a b => a + b)
                           (fun a b => (a + b)%num) Some).
  reflexivity.
Qed.

Lemma clamp_checked (v lo hi : R) :
  clamp (Some v) (Some lo) (Some hi) = Some (clamp v lo hi).
Proof.
  unfold clamp. checked_ops.
  destruct (Exact.ltb v lo); [reflexivity|].
  destruct (Exact.ltb hi v); reflexivity.
Qed.

Lemma insert_sorted_checked (v : R) (sorted : list R) :
  insert_sorted (Some v) (map Some sorted) = map Some (insert_sorted v sorted).
Proof.
  induction sorted as [|w rest IH]; cbn.
  - reflexivity.
  - checked_ops. destruct (Exact.ltb 0 (v - w)); cbn.
    + rewrite IH. reflexivity.
    + reflexivity.
Qed.

Lemma toSorted_checked (values : list R) :
  toSorted (map Some values) = map Some (toSorted values).
Proof.
  unfold toSorted. induction values as [|v rest IH]; cbn.
  - reflexivity.
  - rewrite IH. apply insert_sorted_checked.
Qed.

Lemma at_key_checked (sortedValues : list R) (k : R) :
  at_key (map Some sortedValues) (Some k)
  = option_map Some (at_key sortedValues k).
Proof.
  unfold at_key. checked_ops.
  destruct (Exact.to_index k) as [i|]; [|reflexivity].
  apply nth_error_map.
Qed.

Lemma quantile_checked (sortedValues : list R) (q : R) :
  quantile (map Some sortedValues) (Some q) = Some (quantile sortedValues q).
Proof.
  destruct sortedValues as [|x rest] eqn:Hs; [reflexivity|].
  rewrite <- Hs.
  assert (Hne : sortedValues <> []) by (rewrite Hs; discriminate).
  unfold quantile. rewrite length_map, !nth_error_map. checked_ops.
  rewrite !at_key_checked.
  destruct (Nat.eqb (length sortedValues) 0) eqn:Hlen.
  { apply Nat.eqb_eq in Hlen. rewrite Hs in Hlen. discriminate. }
  destruct (Exact.leb q 0) eqn:Hq0.
  { rewrite Hs. reflexivity. }
  destruct (Exact.leb 1 q) eqn:Hq1.
  { destruct (nth_error sortedValues (length sortedValues - 1)) as [y|] eqn:Hlast;
      [reflexivity|].
    apply nth_error_None in Hlast. rewrite Hs in Hlast. cbn in Hlast. lia. }
  apply leb_exact_false in Hq0. apply leb_exact_false in Hq1.
  destruct (quantile_exact_reads sortedValues q Hne (conj Hq0 Hq1))
    as [lower [upper [Hlo [Hup _]]]].
  destruct (position_bounds (length sortedValues) q) as [Hfl Hce];
    [rewrite Hs; cbn; lia | lra |].
  unfold at_key, Exact.floor, Exact.ceil. exact_ops.
  rewrite !to_index_exact by lia. rewrite Hlo, Hup. reflexivity.
Qed.

Lemma winsorize_checked (values : list R) (lowerQuantile upperQuantile : R) :
  winsorize (map Some values) (Some lowerQuantile) (Some upperQuantile)
  = map Some (winsorize values lowerQuantile upperQuantile).
Proof.
  unfold winsorize. rewrite toSorted_checked, !quantile_checked, !map_map.
  apply map_ext. intro v. apply clamp_checked.
Qed.

Lemma collect_checked (values : list (option R)) (i : nat) :
  collect (map (option_map Some) values) i = map liftEntry (collect values i).
Proof.
  revert i. induction values as [|v rest IH]; intro i; cbn.
  - reflexivity.
  - destruct v as [v|]; cbn; rewrite IH; reflexivity.
Qed.

Lemma length_nonzero {A : Type} (l : list A) : l <> [] -> INR (length l) <> 0.
Proof.
  intro Hne. destruct l; [congruence|]. apply not_0_INR. cbn. lia.
Qed.

Lemma meanOf_checked (indexedValues : list (Entry R)) :
  indexedValues <> [] ->
  meanOf (map liftEntry indexedValues) = Some (meanOf indexedValues).
Proof.
  intro Hne. unfold meanOf. rewrite length_map.
  change (@zero (option R) checked) with (Some 0).
  rewrite (fold_left_checked (fun acc e => acc + value e)
                             (fun acc e => (acc + value e)%num) liftEntry)
    by reflexivity.
  checked_ops. apply checked_div, length_nonzero, Hne.
Qed.

Lemma varianceSumOf_checked (indexedValues : list (Entry R)) :
  indexedValues <> [] ->
  varianceSumOf (map liftEntry indexedValues)
  = Some (varianceSumOf indexedValues).
Proof.
  intro Hne. unfold varianceSumOf. rewrite (meanOf_checked _ Hne).
  apply (fold_left_checked
           (fun acc e => acc + (value e - meanOf indexedValues)
                               * (value e - meanOf indexedValues))
           (fun acc e => (acc + (value e - Some (meanOf indexedValues))
                                * (value e - Some (meanOf indexedValues)))%num)
           liftEntry).
  reflexivity.
Qed.

Lemma varianceSumOf_nonneg (indexedValues : list (Entry R)) :
  0 <= varianceSumOf indexedValues.
Proof.
  rewrite varianceSumOf_exact.
  apply (Rsum_squares_nonneg (fun e => value e - meanOf indexedValues)).
Qed.

Lemma standardDeviationOf_checked (indexedValues : list (Entry R)) :
  indexedValues <> [] ->
  standardDeviationOf (map liftEntry indexedValues)
  = Some (standardDeviationOf indexedValues).
Proof.
  intro Hne. unfold standardDeviationOf.
  rewrite (varianceSumOf_checked _ Hne), length_map. checked_ops.
  pose proof (length_nonzero indexedValues Hne) as Hn.
  rewrite checked_div by exact Hn.
  apply checked_sqrt.
  apply Rmult_le_pos; [apply varianceSumOf_nonneg|].
  apply Rlt_le, Rinv_0_lt_compat.
  pose proof (pos_INR (length indexedValues)). lra.
Qed.

Lemma winsorizedYValuesOf_checked (indexedValues : list (Entry R)) :
  winsorizedYValuesOf (map liftEntry indexedValues)
  = map Some (winsorizedYValuesOf indexedValues).
Proof.
  unfold winsorizedYValuesOf, originalYValuesOf.
  rewrite !length_map, map_map.
  change (map (fun x => value (liftEntry x)) indexedValues)
    with (map (fun x => Some (value x)) indexedValues).
  rewrite <- (map_map (@value R) Some).
  destruct (Nat.leb 20 (length indexedValues)); [|reflexivity].
  checked_ops. apply winsorize_checked.
Qed.

Lemma regressionPoints_checked (indexedValues : list (Entry R)) :
  regressionPoints (map liftEntry indexedValues)
  = map liftPoint (regressionPoints indexedValues).
Proof.
  unfold regressionPoints. rewrite winsorizedYValuesOf_checked.
  generalize (winsorizedYValuesOf indexedValues) as ws.
  induction indexedValues as [|e rest IH]; intros [|w ws]; cbn;
    try reflexivity.
  rewrite IH. reflexivity.
Qed.

Lemma sumsOf_checked (points : list (Entry R * R)) :
  sumsOf (map liftPoint points) = liftSums (sumsOf points).
Proof.
  unfold sumsOf.
  set (step := fun (s : Sums R) (p : Entry R * R) =>
                 let x := of_nat (index (fst p)) in
                 let y := snd p in
                 {| sumX := sumX s + x;
                    sumY := sumY s + y;
                    sumXY := sumXY s + x * y;
                    sumXX := sumXX s + x * x |}%num).
  set (stepc := fun (s : Sums (option R)) (p : Entry (option R) * option R) =>
                  let x := of_nat (index (fst p)) in
                  let y := snd p in
                  {| sumX := sumX s + x;
                     sumY := sumY s + y;
                     sumXY := sumXY s + x * y;
                     sumXX := sumXX s + x * x |}%num).
  assert (Hgen : forall s0,
             fold_left stepc (map liftPoint points) (liftSums s0)
             = liftSums (fold_left step points s0)).
  { induction points as [|p rest IH]; intro s0; cbn [map fold_left].
    - reflexivity.
    - rewrite <- IH. reflexivity. }
  apply (Hgen {| sumX := 0; sumY := 0; sumXY := 0; sumXX := 0 |}).
Qed.

Lemma denominatorOf_checked (indexedValues : list (Entry R)) :
  denominatorOf (map liftEntry indexedValues)
  = Some (denominatorOf indexedValues).
Proof.
  unfold denominatorOf.
  rewrite regressionPoints_checked, sumsOf_checked, length_map. reflexivity.
Qed.

Lemma slopeOf_checked (indexedValues : list (Entry R)) :
  slopeOf (map liftEntry indexedValues) = Some (slopeOf indexedValues).
Proof.
  unfold slopeOf.
  rewrite denominatorOf_checked, regressionPoints_checked, sumsOf_checked,
    length_map.
  checked_ops. cbn [liftSums sumX sumY sumXY sumXX].
  destruct (Exact.eqb (denominatorOf indexedValues) 0) eqn:HD; [reflexivity|].
  apply checked_div. apply eqb_exact_false, HD.
Qed.

Lemma meanYOf_checked (indexedValues : list (Entry R)) :
  indexedValues <> [] ->
  meanYOf (map liftEntry indexedValues) = Some (meanYOf indexedValues).
Proof.
  intro Hne. unfold meanYOf.
  rewrite regressionPoints_checked, sumsOf_checked, length_map.
  checked_ops. cbn [liftSums sumY].
  apply checked_div, length_nonzero, Hne.
Qed.

Lemma interceptOf_checked (indexedValues : list (Entry R)) :
  indexedValues <> [] ->
  interceptOf (map liftEntry indexedValues) = Some (interceptOf indexedValues).
Proof.
  intro Hne. unfold interceptOf.
  rewrite slopeOf_checked, regressionPoints_checked, sumsOf_checked, length_map.
  checked_ops. cbn [liftSums sumX sumY].
  apply checked_div, length_nonzero, Hne.
Qed.

Lemma ssTotalOf_checked (indexedValues : list (Entry R)) :
  indexedValues <> [] ->
  ssTotalOf (map liftEntry indexedValues) = Some (ssTotalOf indexedValues).
Proof.
  intro Hne. unfold ssTotalOf.
  rewrite (meanYOf_checked _ Hne), regressionPoints_checked.
  apply (fold_left_checked
           (fun acc p => acc + (snd p - meanYOf indexedValues)
                               * (snd p - meanYOf indexedValues))
           (fun acc p => (acc + (snd p - Some (meanYOf indexedValues))
                                * (snd p - Some (meanYOf indexedValues)))%num)
           liftPoint).
  reflexivity.
Qed.

Lemma ssResidualOf_checked (indexedValues : list (Entry R)) :
  indexedValues <> [] ->
  ssResidualOf (map liftEntry indexedValues)
  = Some (ssResidualOf indexedValues).
Proof.
  intro Hne. unfold ssResidualOf.
  rewrite slopeOf_checked, (interceptOf_checked _ Hne), regressionPoints_checked.
  apply (fold_left_checked
           (fun acc p =>
              acc + (snd p - (slopeOf indexedValues * INR (index (fst p))
                              + interceptOf indexedValues))
                    * (snd p - (slopeOf indexedValues * INR (index (fst p))
                                + interceptOf indexedValues)))
           (fun acc p =>
              (acc + (snd p - (Some (slopeOf indexedValues) * of_nat (index (fst p))
                               + Some (interceptOf indexedValues)))
                     * (snd p - (Some (slopeOf indexedValues)
                                 * of_nat (index (fst p))
                                 + Some (interceptOf indexedValues))))%num)
           liftPoint).
  reflexivity.
Qed.

Lemma rSquaredOf_checked (indexedValues : list (Entry R)) :
  rSquaredOf (map liftEntry indexedValues)
  = option_map Some (rSquaredOf indexedValues).
Proof.
  unfold rSquaredOf. rewrite denominatorOf_checked. checked_ops.
  destruct (Exact.eqb (denominatorOf indexedValues) 0) eqn:HD;
    [reflexivity|]. cbn [negb].
  assert (Hne : indexedValues <> []).
  { intros ->. apply eqb_exact_false in HD. apply HD.
    unfold denominatorOf, regressionPoints. cbn. lra. }
  rewrite (ssTotalOf_checked _ Hne), (ssResidualOf_checked _ Hne). checked_ops.
  destruct (Exact.eqb (ssTotalOf indexedValues) 0) eqn:HT; [reflexivity|].
  cbn [negb option_map]. rewrite checked_div by (apply eqb_exact_false, HT).
  reflexivity.
Qed.

Lemma robustMeanYOf_checked (indexedValues : list (Entry R)) :
  robustMeanYOf (map liftEntry indexedValues)
  = Some (robustMeanYOf indexedValues).
Proof.
  unfold robustMeanYOf.
  rewrite winsorizedYValuesOf_checked, length_map, sum_checked.
  destruct (Nat.ltb 0 (length (winsorizedYValuesOf indexedValues))) eqn:Hlen;
    [|reflexivity].
  checked_ops. apply checked_div.
  apply Nat.ltb_lt in Hlen. apply not_0_INR. lia.
Qed.

Lemma relativeSlopeOf_checked (indexedValues : list (Entry R)) :
  relativeSlopeOf (map liftEntry indexedValues)
  = Some (relativeSlopeOf indexedValues).
Proof.
  unfold relativeSlopeOf. rewrite robustMeanYOf_checked, slopeOf_checked.
  checked_ops.
  destruct (Exact.eqb (robustMeanYOf indexedValues) 0) eqn:Hm; [reflexivity|].
  apply checked_div. apply eqb_exact_false, Hm.
Qed.

Lemma trendOf_checked (indexedValues : list (Entry R)) :
  indexedValues <> [] ->
  trendOf (map liftEntry indexedValues) = trendOf indexedValues.
Proof.
  intro Hne. unfold trendOf.
  rewrite (standardDeviationOf_checked _ Hne), rSquaredOf_checked,
    relativeSlopeOf_checked.
  checked_ops.
  destruct (Exact.eqb (standardDeviationOf indexedValues) 0); [reflexivity|].
  destruct (rSquaredOf indexedValues) as [r2|]; [|reflexivity].
  cbn [option_map]. unfold baseTrendOf, upgradeTrend. checked_ops.
  reflexivity.
Qed.

Lemma indexedValuesOf_checked (values : list (option R)) :
  indexedValuesOf (map (option_map Some) values)
  = map liftEntry (indexedValuesOf values).
Proof. apply collect_checked. Qed.

(** The checked run of the analysis on numbers is the run over the reals. *)
Lemma analysis_checked (values : list (option R)) :
  computeLineChartAnalysis (map (option_map Some) values)
  = liftAnalysis (computeLineChartAnalysis values).
Proof.
  pose proof (indexedValuesOf_checked values) as Hlift.
  destruct (indexedValuesOf values) as [|e1 [|e2 rest]] eqn:Hiv.
  - rewrite (analysis_empty values Hiv), (analysis_empty _ Hlift). reflexivity.
  - rewrite (analysis_single values e1 Hiv),
      (analysis_single _ (liftEntry e1) Hlift).
    reflexivity.
  - assert (Hn : (2 <= length (indexedValuesOf values))%nat)
      by (rewrite Hiv; cbn; lia).
    assert (Hn' : (2 <= length (indexedValuesOf (map (option_map Some) values)))%nat)
      by (rewrite Hlift; cbn; lia).
    rewrite (analysis_general values Hn), (analysis_general _ Hn').
    rewrite <- Hiv in Hlift. rewrite Hlift. cbv zeta.
    assert (Hne : indexedValuesOf values <> []) by (rewrite Hiv; discriminate).
    rewrite (meanOf_checked _ Hne), (standardDeviationOf_checked _ Hne),
      slopeOf_checked, rSquaredOf_checked, (trendOf_checked _ Hne).
    unfold liftAnalysis.
    cbn [mean standardDeviation coefficientOfVariation slope rSquared
         interpretation].
    checked_ops.
    destruct (Exact.eqb (meanOf (indexedValuesOf values)) 0) eqn:Hmean.
    + reflexivity.
    + rewrite checked_div by (apply eqb_exact_false, Hmean). reflexivity.
Qed.

End CheckedExecution.

(** ** Totality and the guards of the divisions *)

(** C9, amended.  The analysis is a total function, and in checked
    arithmetic (a division by 0, the square root of a negative number or an
    out-of-range array read would yield the non-number) its run on any
    series of real numbers, missing entries allowed, is the run over the
    reals: mean, standardDeviation and slope are numbers,
    coefficientOfVariation and rSquared are null or numbers.  With two
    observations or more, where the statistics are computed, every value
    the run computes is a number: the mean (a division by n), the variance
    sum and the standardDeviation (a division by n and a square root), the
    regression denominator and the slope (a division by the denominator),
    the mean of the regression inputs, the intercept and the two sums of
    squares (divisions by n), the mean of the winsorized values (a division
    by their count) and the relative slope (a division by that mean); and
    coefficientOfVariation (a division by the mean) and rSquared (a
    division by the total sum of squares) are null or numbers.  So every
    division is reached with a non-zero denominator and the square root
    with a non-negative argument. *)
Theorem analysis_guards_every_division (values : list (option R)) :
  let run := map (option_map Some) values in
  let r := computeLineChartAnalysis run in
  let indexedValues := indexedValuesOf run in
  let number (x : option R) := exists a : R, x = Some a in
  r = liftAnalysis (computeLineChartAnalysis values)
  /\ number (mean r)
  /\ number (standardDeviation r)
  /\ number (slope r)
  /\ coefficientOfVariation r <> Some None
  /\ rSquared r <> Some None
  /\ (2 <= length indexedValues ->
      number (meanOf indexedValues)
      /\ number (varianceSumOf indexedValues)
      /\ number (standardDeviationOf indexedValues)
      /\ number (denominatorOf indexedValues)
      /\ number (slopeOf indexedValues)
      /\ number (meanYOf indexedValues)
      /\ number (interceptOf indexedValues)
      /\ number (ssTotalOf indexedValues)
      /\ number (ssResidualOf indexedValues)
      /\ rSquaredOf indexedValues <> Some None
      /\ number (robustMeanYOf indexedValues)
      /\ number (relativeSlopeOf indexedValues)
      /\ (if (meanOf indexedValues =? zero)%num then True
          else number (standardDeviationOf indexedValues
                       / meanOf indexedValues)%num)).
Proof.
  cbv zeta. rewrite analysis_checked, indexedValuesOf_checked.
  unfold liftAnalysis.
  cbn [mean standardDeviation coefficientOfVariation slope rSquared].
  cbv beta.
  split; [reflexivity|]. split; [eauto|]. split; [eauto|]. split; [eauto|].
  split.
  { destruct (coefficientOfVariation (computeLineChartAnalysis values));
      discriminate. }
  split.
  { destruct (rSquared (computeLineChartAnalysis values)); discriminate. }
  rewrite length_map. intro Hn.
  set (indexedValues := indexedValuesOf values) in *.
  assert (Hne : indexedValues <> [])
    by (destruct indexedValues; [cbn in Hn; exfalso; lia | discriminate]).
  rewrite (meanOf_checked indexedValues Hne).
  rewrite (varianceSumOf_checked indexedValues Hne).
  rewrite (standardDeviationOf_checked indexedValues Hne).
  rewrite (denominatorOf_checked indexedValues).
  rewrite (slopeOf_checked indexedValues).
  rewrite (meanYOf_checked indexedValues Hne).
  rewrite (interceptOf_checked indexedValues Hne).
  rewrite (ssTotalOf_checked indexedValues Hne).
  rewrite (ssResidualOf_checked indexedValues Hne).
  rewrite (rSquaredOf_checked indexedValues).
  rewrite (robustMeanYOf_checked indexedValues).
  rewrite (relativeSlopeOf_checked indexedValues).
  cbv beta.
  assert (Hcv :
    if (Some (meanOf indexedValues) =? zero)%num then True
    else exists a : R,
        (Some (standardDeviationOf indexedValues)
         / Some (meanOf indexedValues))%num = Some a).
  { checked_ops.
    destruct (Exact.eqb (meanOf indexedValues) 0) eqn:Hmean; [exact I|].
    apply eqb_exact_false in Hmean.
    rewrite checked_div by exact Hmean. eauto. }
  assert (Hr2 : option_map Some (rSquaredOf indexedValues) <> Some None)
    by (destruct (rSquaredOf indexedValues); discriminate).
  repeat split; eauto.
Qed.

(** C9 as stated fails in binary64 by overflow: the finite series
    1e308, 1e308 has sum Infinity, hence mean and standardDeviation
    Infinity and coefficientOfVariation, slope and rSquared NaN. *)
Lemma analysis_binary64_overflow :
  let r := computeLineChartAnalysis [Some 1e308; Some 1e308]%float in
  PrimFloat.is_finite 1e308 = true
  /\ PrimFloat.is_infinity (mean r) = true
  /\ PrimFloat.is_infinity (standardDeviation r) = true
  /\ option_map PrimFloat.is_nan (coefficientOfVariation r) = Some true
  /\ PrimFloat.is_nan (slope r) = true
  /\ option_map PrimFloat.is_nan (rSquared r) = Some true.
Proof. cbv zeta. repeat split; vm_compute; reflexivity. Qed.

(** * Further properties of the chart utilities and of the route helpers *)

(** ** Weekly aggregation *)

Section ChunkFacts.

Context {T : Type}.

Lemma firstn_plus (a b : nat) (l : list T) :
  firstn (a + b) l = firstn a l ++ firstn b (skipn a l).
Proof.
  revert l. induction a as [|a IH]; intro l; [reflexivity|].
  destruct l as [|x l]; cbn.
  - rewrite firstn_nil. reflexivity.
  - rewrite IH. reflexivity.
Qed.

Lemma slice_in_range (items : list T) (a b : Z) :
  (0 <= a <= b)%Z ->
  slice items a b
  = firstn (Z.to_nat (Z.min b (Z.of_nat (length items)))
            - Z.to_nat (Z.min a (Z.of_nat (length items))))
           (skipn (Z.to_nat (Z.min a (Z.of_nat (length items)))) items).
Proof.
  intros [Ha Hb]. unfold slice.
  destruct (a <? 0)%Z eqn:Ea; [apply Z.ltb_lt in Ea; lia|].
  destruct (b <? 0)%Z eqn:Eb; [apply Z.ltb_lt in Eb; lia|].
  f_equal. lia.
Qed.

Lemma slice_app (items : list T) (a b c : Z) :
  (0 <= a <= b)%Z -> (b <= c)%Z ->
  slice items a b ++ slice items b c = slice items a c.
Proof.
  intros Hab Hbc.
  rewrite !slice_in_range by lia.
  set (len := Z.of_nat (length items)).
  set (a' := Z.to_nat (Z.min a len)).
  set (b' := Z.to_nat (Z.min b len)).
  set (c' := Z.to_nat (Z.min c len)).
  assert (Hab' : a' <= b') by (unfold a', b'; lia).
  assert (Hbc' : b' <= c') by (unfold b', c'; lia).
  replace (c' - a') with ((b' - a') + (c' - b')) by lia.
  rewrite firstn_plus. f_equal.
  rewrite skipn_skipn. replace (b' - a' + a') with b' by lia. reflexivity.
Qed.

Lemma slice_all (items : list T) (c : Z) :
  (Z.of_nat (length items) <= c)%Z -> slice items 0 c = items.
Proof.
  intro Hc. rewrite slice_in_range by lia.
  rewrite Z.min_r by lia. rewrite Z.min_l by lia.
  cbn [Z.to_nat skipn]. rewrite Nat.sub_0_r, Nat2Z.id. apply firstn_all.
Qed.

Lemma slice_length (items : list T) (a b : Z) :
  (0 <= a <= b)%Z ->
  Z.of_nat (length (slice items a b))
  = (Z.min b (Z.of_nat (length items)) - Z.min a (Z.of_nat (length items)))%Z.
Proof.
  intros Hab. rewrite slice_in_range by lia.
  rewrite length_firstn, length_skipn. lia.
Qed.

Lemma chunkCount_spec (n : nat) (w : Z) (k : nat) :
  (0 < w)%Z ->
  (Z.of_nat k * w <? Z.of_nat n)%Z = Nat.ltb k (chunkCount n w).
Proof.
  intro Hw. unfold chunkCount.
  set (len := Z.of_nat n).
  assert (Hlen : (0 <= len)%Z) by (unfold len; lia).
  assert (Hq : (0 <= (len + w - 1) / w)%Z) by (apply Z.div_pos; lia).
  pose proof (Z.div_mod (len + w - 1) w ltac:(lia)) as Hdm.
  pose proof (Z.mod_pos_bound (len + w - 1) w Hw) as Hmod.
  destruct (Z.of_nat k * w <? len)%Z eqn:E; symmetry.
  - apply Z.ltb_lt in E. apply Nat.ltb_lt.
    assert (Z.of_nat k < (len + w - 1) / w)%Z; [nia|lia].
  - apply Z.ltb_ge in E. apply Nat.ltb_ge.
    assert ((len + w - 1) / w <= Z.of_nat k)%Z; [nia|lia].
Qed.

Lemma chunkLoop_chunks (items : list T) (w : Z) :
  (0 < w)%Z ->
  forall (fuel k : nat) (result : list (list T)),
    chunkLoop fuel items w (Z.of_nat k * w) result
    = if Nat.leb (chunkCount (length items) w) (k + fuel)
      then Some (result
                 ++ map (fun j => slice items (Z.of_nat j * w) (Z.of_nat j * w + w))
                        (seq k (chunkCount (length items) w - k)))
      else None.
Proof.
  intros Hw fuel. induction fuel as [|fuel IH]; intros k result.
  - cbn [chunkLoop]. rewrite chunkCount_spec by exact Hw.
    rewrite Nat.add_0_r.
    destruct (Nat.ltb k (chunkCount (length items) w)) eqn:E.
    + apply Nat.ltb_lt in E.
      replace (Nat.leb (chunkCount (length items) w) k) with false
        by (symmetry; apply Nat.leb_gt; lia).
      reflexivity.
    + apply Nat.ltb_ge in E.
      replace (Nat.leb (chunkCount (length items) w) k) with true
        by (symmetry; apply Nat.leb_le; lia).
      replace (chunkCount (length items) w - k) with 0 by lia.
      cbn. rewrite app_nil_r. reflexivity.
  - cbn [chunkLoop]. rewrite chunkCount_spec by exact Hw.
    destruct (Nat.ltb k (chunkCount (length items) w)) eqn:E.
    + apply Nat.ltb_lt in E.
      replace (Z.of_nat k * w + w)%Z with (Z.of_nat (S k) * w)%Z by lia.
      rewrite IH.
      replace (S k + fuel) with (k + S fuel) by lia.
      destruct (Nat.leb (chunkCount (length items) w) (k + S fuel));
        [|reflexivity].
      replace (chunkCount (length items) w - k)
        with (S (chunkCount (length items) w - S k)) by lia.
      cbn [seq map]. rewrite <- app_assoc. cbn [app].
      replace (Z.of_nat k * w + w)%Z with (Z.of_nat (S k) * w)%Z by lia.
      reflexivity.
    + apply Nat.ltb_ge in E.
      replace (Nat.leb (chunkCount (length items) w) (k + S fuel)) with true
        by (symmetry; apply Nat.leb_le; lia).
      replace (chunkCount (length items) w - k) with 0 by lia.
      cbn. rewrite app_nil_r. reflexivity.
Qed.

Lemma chunks_concat (items : list T) (w : Z) (k m : nat) :
  (0 < w)%Z ->
  concat (map (fun j => slice items (Z.of_nat j * w) (Z.of_nat j * w + w))
              (seq k m))
  = slice items (Z.of_nat k * w) (Z.of_nat (k + m) * w).
Proof.
  intro Hw. revert k. induction m as [|m IH]; intro k.
  - cbn. rewrite Nat.add_0_r. rewrite slice_in_range by lia.
    rewrite Nat.sub_diag. reflexivity.
  - cbn [seq map concat]. rewrite IH.
    replace (Z.of_nat k * w + w)%Z with (Z.of_nat (S k) * w)%Z by lia.
    rewrite slice_app by nia. f_equal. lia.
Qed.

Lemma chunkCount_covers (n : nat) (w : Z) :
  (0 < w)%Z -> (Z.of_nat n <= Z.of_nat (chunkCount n w) * w)%Z.
Proof.
  intro Hw.
  pose proof (chunkCount_spec n w (chunkCount n w) Hw) as Hspec.
  rewrite Nat.ltb_irrefl in Hspec. apply Z.ltb_ge in Hspec. exact Hspec.
Qed.

Lemma chunkCount_le (n : nat) (w : Z) : (0 < w)%Z -> chunkCount n w <= n.
Proof.
  intro Hw. destruct (chunkCount n w) as [|c] eqn:Hc; [lia|].
  pose proof (chunkCount_spec n w c Hw) as Hspec.
  rewrite Hc in Hspec.
  replace (Nat.ltb c (S c)) with true in Hspec by (symmetry; apply Nat.ltb_lt; lia).
  apply Z.ltb_lt in Hspec. nia.
Qed.

Lemma chunkIntoWeeks_closed_form (items : list T) (w : Z) (fuel : nat) :
  (0 < w)%Z ->
  chunkIntoWeeks fuel items w
  = if Nat.leb (chunkCount (length items) w) fuel
    then Some (map (fun j => slice items (Z.of_nat j * w) (Z.of_nat j * w + w))
                   (seq 0 (chunkCount (length items) w)))
    else None.
Proof.
  intro Hw. unfold chunkIntoWeeks.
  pose proof (chunkLoop_chunks items w Hw fuel 0 []) as Hloop.
  cbn [Z.of_nat Z.mul app Nat.add] in Hloop. rewrite Nat.sub_0_r in Hloop.
  exact Hloop.
Qed.

Lemma slice_nth_error (items : list T) (a b : Z) (i : nat) :
  (0 <= a <= b)%Z ->
  nth_error (slice items a b) i
  = if (Z.of_nat i <? b - a)%Z then nth_error items (Z.to_nat a + i) else None.
Proof.
  intro Hab. rewrite slice_in_range by exact Hab.
  set (len := Z.of_nat (length items)).
  rewrite nth_error_firstn, nth_error_skipn.
  destruct (Z.of_nat i <? b - a)%Z eqn:Ei.
  - apply Z.ltb_lt in Ei.
    destruct (Nat.ltb i (Z.to_nat (Z.min b len) - Z.to_nat (Z.min a len))) eqn:Ej.
    + apply Nat.ltb_lt in Ej. f_equal. lia.
    + apply Nat.ltb_ge in Ej. symmetry. apply nth_error_None. lia.
  - apply Z.ltb_ge in Ei.
    destruct (Nat.ltb i (Z.to_nat (Z.min b len) - Z.to_nat (Z.min a len))) eqn:Ej;
      [|reflexivity].
    apply Nat.ltb_lt in Ej. lia.
Qed.

(** X1.  For a positive week size [chunkIntoWeeks] returns (the loop ends
    within [items.length] iterations), the chunks put end to end are the
    items, in their order, and there are ceil(items.length / weekSize)
    chunks. *)
Theorem chunkIntoWeeks_partition (items : list T) (weekSize : Z) (fuel : nat) :
  (0 < weekSize)%Z ->
  length items <= fuel ->
  exists chunks,
    chunkIntoWeeks fuel items weekSize = Some chunks
    /\ concat chunks = items
    /\ Z.of_nat (length chunks)
       = ((Z.of_nat (length items) + weekSize - 1) / weekSize)%Z.
Proof.
  intros Hw Hfuel.
  pose proof (chunkCount_le (length items) weekSize Hw) as Hle.
  rewrite chunkIntoWeeks_closed_form by exact Hw.
  replace (Nat.leb (chunkCount (length items) weekSize) fuel) with true
    by (symmetry; apply Nat.leb_le; lia).
  eexists. split; [reflexivity|]. split.
  - rewrite chunks_concat by exact Hw. cbn [Z.of_nat Z.mul Nat.add].
    apply slice_all. apply chunkCount_covers. exact Hw.
  - rewrite length_map, length_seq. unfold chunkCount.
    rewrite Z2Nat.id; [reflexivity|]. apply Z.div_pos; lia.
Qed.

(** X2.  Whenever [chunkIntoWeeks] returns for a positive week size, its
    k-th chunk is the run of items from position k * weekSize on: it is not
    empty, has at most weekSize items, and exactly weekSize unless it is the
    last chunk. *)
Theorem chunkIntoWeeks_sizes (items : list T) (weekSize : Z) (fuel : nat)
        (chunks : list (list T)) (k : nat) (chunk : list T) :
  (0 < weekSize)%Z ->
  chunkIntoWeeks fuel items weekSize = Some chunks ->
  nth_error chunks k = Some chunk ->
  (forall i, nth_error chunk i
             = if (Z.of_nat i <? weekSize)%Z
               then nth_error items (k * Z.to_nat weekSize + i)
               else None)
  /\ (1 <= Z.of_nat (length chunk) <= weekSize)%Z
  /\ (S k < length chunks -> Z.of_nat (length chunk) = weekSize).
Proof.
  intros Hw Hrun Hk.
  rewrite chunkIntoWeeks_closed_form in Hrun by exact Hw.
  destruct (Nat.leb (chunkCount (length items) weekSize) fuel); [|discriminate].
  injection Hrun as <-.
  rewrite nth_error_map, nth_error_seq, length_map, length_seq in *.
  destruct (Nat.ltb k (chunkCount (length items) weekSize)) eqn:Hlen;
    [|discriminate].
  apply Nat.ltb_lt in Hlen. cbn [option_map Nat.add] in Hk.
  injection Hk as <-.
  assert (Hin : (Z.of_nat k * weekSize < Z.of_nat (length items))%Z).
  { apply Z.ltb_lt. rewrite chunkCount_spec by exact Hw.
    apply Nat.ltb_lt. exact Hlen. }
  split; [|split].
  - intro i. rewrite slice_nth_error by nia.
    replace (Z.of_nat k * weekSize + weekSize - Z.of_nat k * weekSize)%Z
      with weekSize by lia.
    replace (Z.to_nat (Z.of_nat k * weekSize)) with (k * Z.to_nat weekSize) by nia.
    reflexivity.
  - rewrite slice_length by nia. lia.
  - intro Hnext. rewrite slice_length by nia.
    assert (Hin' : (Z.of_nat (S k) * weekSize < Z.of_nat (length items))%Z).
    { apply Z.ltb_lt. rewrite chunkCount_spec by exact Hw.
      apply Nat.ltb_lt. exact Hnext. }
    lia.
Qed.

Lemma chunkLoop_diverges (items : list T) (w : Z) (fuel : nat) :
  (w <= 0)%Z ->
  forall (index : Z) (result : list (list T)),
    (index < Z.of_nat (length items))%Z ->
    chunkLoop fuel items w index result = None.
Proof.
  intro Hw. induction fuel as [|fuel IH]; intros index result Hin; cbn [chunkLoop].
  - replace (index <? Z.of_nat (length items))%Z with true
      by (symmetry; apply Z.ltb_lt; exact Hin).
    reflexivity.
  - replace (index <? Z.of_nat (length items))%Z with true
      by (symmetry; apply Z.ltb_lt; exact Hin).
    apply IH. lia.
Qed.

(** X3.  With a week size of 0 or below the loop of [chunkIntoWeeks] never
    ends on a non-empty input, since the index does not advance; the empty
    input gives the empty result. *)
Theorem chunkIntoWeeks_week_size_not_positive
        (items : list T) (weekSize : Z) (fuel : nat) :
  (weekSize <= 0)%Z ->
  chunkIntoWeeks fuel items weekSize
  = match items with [] => Some [] | _ :: _ => None end.
Proof.
  intro Hw. destruct items as [|x rest].
  - destruct fuel; reflexivity.
  - apply chunkLoop_diverges; [exact Hw | cbn [length]; lia].
Qed.

End ChunkFacts.

Lemma chunkIntoWeeks_partition_witness :
  exists chunks,
    chunkIntoWeeks 5 [1; 2; 3; 4; 5] 2 = Some chunks
    /\ concat chunks = [1; 2; 3; 4; 5]
    /\ Z.of_nat (length chunks) = ((Z.of_nat 5 + 2 - 1) / 2)%Z.
Proof.
  apply (chunkIntoWeeks_partition [1; 2; 3; 4; 5] 2 5); [lia | cbn; lia].
Defined.

Lemma chunkIntoWeeks_sizes_witness :
  (1 <= Z.of_nat (length [5]) <= 2)%Z
  /\ (3 < 3 -> Z.of_nat (length [5]) = 2%Z).
Proof.
  apply (chunkIntoWeeks_sizes [1; 2; 3; 4; 5] 2 5 [[1; 2]; [3; 4]; [5]] 2 [5]);
    [lia | reflexivity | reflexivity].
Defined.

Lemma chunkIntoWeeks_week_size_not_positive_witness :
  chunkIntoWeeks 1000 [1; 2; 3] 0 = None.
Proof.
  apply (chunkIntoWeeks_week_size_not_positive [1; 2; 3] 0 1000). lia.
Defined.

Section WeeklyFacts.

Context {num : Type} `{Number num}.

(** X4.  [buildWeeklyEvolutionFromDaily] returns ceil(n / 7) weeks for n
    days; week k starts on day 7k of the input, ends on day 7k + 6 or on the
    last day of the input when that comes first, and carries the sum of the
    downloads of these days: the fallback [''] of the two dates is never
    taken. *)
Theorem buildWeeklyEvolutionFromDaily_weeks
        (daily : list (Daily.t num)) (fuel : nat) :
  length daily <= fuel ->
  exists weeks,
    buildWeeklyEvolutionFromDaily fuel daily = Some weeks
    /\ length weeks = (length daily + 6) / 7
    /\ forall k week,
         nth_error weeks k = Some week ->
         exists first last,
           nth_error daily (7 * k) = Some first
           /\ nth_error daily (Nat.min (7 * k + 6) (length daily - 1)) = Some last
           /\ Weekly.weekStart week = Daily.day first
           /\ Weekly.weekEnd week = Daily.day last
           /\ Weekly.downloads week
              = sum (map Daily.downloads (firstn 7 (skipn (7 * k) daily))).
Proof.
  intro Hfuel. unfold buildWeeklyEvolutionFromDaily.
  assert (Hw : (0 < 7)%Z) by lia.
  pose proof (chunkCount_le (length daily) 7 Hw) as Hle.
  rewrite chunkIntoWeeks_closed_form by exact Hw.
  replace (Nat.leb (chunkCount (length daily) 7) fuel) with true
    by (symmetry; apply Nat.leb_le; lia).
  eexists. split; [reflexivity|]. split.
  - rewrite !length_map, length_seq. unfold chunkCount.
    replace (Z.of_nat (length daily) + 7 - 1)%Z
      with (Z.of_nat (length daily + 6)) by lia.
    change 7%Z with (Z.of_nat 7). rewrite <- Nat2Z.inj_div. apply Nat2Z.id.
  - intros k week Hk.
    rewrite !nth_error_map, nth_error_seq in Hk.
    destruct (Nat.ltb k (chunkCount (length daily) 7)) eqn:Hlen; [|discriminate].
    cbn [option_map Nat.add] in Hk. injection Hk as <-.
    assert (Hin : (Z.of_nat k * 7 < Z.of_nat (length daily))%Z).
    { apply Z.ltb_lt. rewrite chunkCount_spec by exact Hw. exact Hlen. }
    set (chunk := slice daily (Z.of_nat k * 7) (Z.of_nat k * 7 + 7)).
    assert (Hchunk : chunk = firstn 7 (skipn (7 * k) daily)).
    { unfold chunk. rewrite slice_in_range by lia.
      rewrite (Z.min_l (Z.of_nat k * 7)) by lia.
      replace (Z.to_nat (Z.of_nat k * 7)) with (7 * k) by lia.
      apply nth_error_ext. intro i.
      rewrite !nth_error_firstn, !nth_error_skipn.
      destruct (Nat.ltb i 7) eqn:E7.
      - apply Nat.ltb_lt in E7.
        destruct (Nat.ltb i (Z.to_nat (Z.min (Z.of_nat k * 7 + 7)
                                             (Z.of_nat (length daily))) - 7 * k))
                 eqn:Ei; [reflexivity|].
        apply Nat.ltb_ge in Ei. symmetry. apply nth_error_None. lia.
      - apply Nat.ltb_ge in E7.
        destruct (Nat.ltb i (Z.to_nat (Z.min (Z.of_nat k * 7 + 7)
                                             (Z.of_nat (length daily))) - 7 * k))
                 eqn:Ei; [|reflexivity].
        apply Nat.ltb_lt in Ei. lia. }
    assert (Hsize : length chunk = Nat.min 7 (length daily - 7 * k)).
    { rewrite Hchunk, length_firstn, length_skipn. reflexivity. }
    destruct (nth_error daily (7 * k)) as [first|] eqn:Hfirst.
    2:{ apply nth_error_None in Hfirst. lia. }
    destruct (nth_error daily (Nat.min (7 * k + 6) (length daily - 1)))
      as [last|] eqn:Hlast.
    2:{ apply nth_error_None in Hlast. lia. }
    exists first, last. repeat split.
    + unfold weekOf. cbn [Weekly.weekStart]. fold chunk.
      rewrite Hchunk, nth_error_firstn, nth_error_skipn. cbn [Nat.ltb Nat.leb].
      rewrite Nat.add_0_r, Hfirst. reflexivity.
    + unfold weekOf. cbn [Weekly.weekEnd]. fold chunk.
      rewrite Hsize. rewrite Hchunk, nth_error_firstn, nth_error_skipn.
      replace (Nat.ltb (Nat.min 7 (length daily - 7 * k) - 1) 7) with true
        by (symmetry; apply Nat.ltb_lt; lia).
      replace (7 * k + (Nat.min 7 (length daily - 7 * k) - 1))
        with (Nat.min (7 * k + 6) (length daily - 1)) by lia.
      rewrite Hlast. reflexivity.
    + unfold weekOf. cbn [Weekly.downloads]. fold chunk. rewrite Hchunk.
      reflexivity.
Qed.

End WeeklyFacts.

Section WeeklyWitnesses.

Import (notations) String.
Local Open Scope string_scope.

Lemma buildWeeklyEvolutionFromDaily_weeks_witness :
  let daily :=
    [ {| Daily.day := "2024-01-01"; Daily.downloads := 1 |};
      {| Daily.day := "2024-01-02"; Daily.downloads := 2 |};
      {| Daily.day := "2024-01-03"; Daily.downloads := 3 |};
      {| Daily.day := "2024-01-04"; Daily.downloads := 4 |};
      {| Daily.day := "2024-01-05"; Daily.downloads := 5 |};
      {| Daily.day := "2024-01-06"; Daily.downloads := 6 |};
      {| Daily.day := "2024-01-07"; Daily.downloads := 7 |};
      {| Daily.day := "2024-01-08"; Daily.downloads := 8 |} ]%float in
  exists weeks,
    buildWeeklyEvolutionFromDaily 8 daily = Some weeks
    /\ length weeks = (length daily + 6) / 7
    /\ forall k week,
         nth_error weeks k = Some week ->
         exists first last,
           nth_error daily (7 * k) = Some first
           /\ nth_error daily (Nat.min (7 * k + 6) (length daily - 1)) = Some last
           /\ Weekly.weekStart week = Daily.day first
           /\ Weekly.weekEnd week = Daily.day last
           /\ Weekly.downloads week
              = sum (map Daily.downloads (firstn 7 (skipn (7 * k) daily))).
Proof.
  cbv zeta. apply buildWeeklyEvolutionFromDaily_weeks. cbn. lia.
Defined.

End WeeklyWitnesses.

(** ** clamp, quantile and winsorize over the reals *)

Section ExactProperties.

Local Open Scope R_scope.

(** *** clamp *)

Lemma clamp_exact_cases (v minValue maxValue : R) :
  minValue <= maxValue ->
  (v < minValue /\ clamp v minValue maxValue = minValue)
  \/ (maxValue < v /\ clamp v minValue maxValue = maxValue)
  \/ (minValue <= v <= maxValue /\ clamp v minValue maxValue = v).
Proof.
  intro Hbounds. unfold clamp. exact_ops.
  destruct (Exact.ltb v minValue) eqn:Hlo.
  - apply ltb_exact in Hlo. left. split; [exact Hlo | reflexivity].
  - apply ltb_exact_false in Hlo.
    destruct (Exact.ltb maxValue v) eqn:Hhi.
    + apply ltb_exact in Hhi. right. left. split; [exact Hhi | reflexivity].
    + apply ltb_exact_false in Hhi. right. right. split; [lra | reflexivity].
Qed.

(** X6.  Over the reals, with bounds in order, [clamp] leaves exactly the
    values within the bounds unchanged, clamping twice is clamping once,
    and a larger value never gets a smaller result. *)
Theorem clamp_exact_order (v v' minValue maxValue : R) :
  minValue <= maxValue ->
  (clamp v minValue maxValue = v <-> minValue <= v <= maxValue)
  /\ clamp (clamp v minValue maxValue) minValue maxValue
     = clamp v minValue maxValue
  /\ (v <= v' -> clamp v minValue maxValue <= clamp v' minValue maxValue).
Proof.
  intro Hbounds.
  pose proof (clamp_exact_range v minValue maxValue Hbounds) as Hrange.
  split; [|split].
  - destruct (clamp_exact_cases v minValue maxValue Hbounds)
      as [[Hv Hc]|[[Hv Hc]|[Hv Hc]]]; rewrite Hc; split; intros; lra.
  - destruct (clamp_exact_cases (clamp v minValue maxValue) minValue maxValue
                                Hbounds) as [[Hv Hc]|[[Hv Hc]|[Hv Hc]]];
      [lra | lra | exact Hc].
  - intro Hvv.
    destruct (clamp_exact_cases v minValue maxValue Hbounds)
      as [[Hv Hc]|[[Hv Hc]|[Hv Hc]]];
      destruct (clamp_exact_cases v' minValue maxValue Hbounds)
        as [[Hv' Hc']|[[Hv' Hc']|[Hv' Hc']]];
      rewrite Hc, Hc'; lra.
Qed.

Lemma clamp_exact_order_witness :
  ((clamp 5 0 10 = 5 <-> 0 <= 5 <= 10)
   /\ clamp (clamp 5 0 10) 0 10 = clamp 5 0 10
   /\ (5 <= 20 -> clamp 5 0 10 <= clamp 20 0 10))%R.
Proof.
  apply (clamp_exact_order 5 20 0 10)%R. lra.
Defined.

(** X7.  Over the reals, with the bounds the wrong way round, [clamp]
    returns the lower bound for a value below it and the upper bound for
    every other value, so never a value within the bounds. *)
Theorem clamp_exact_inverted_bounds (v minValue maxValue : R) :
  maxValue < minValue ->
  clamp v minValue maxValue = (if Rlt_dec v minValue then minValue else maxValue).
Proof.
  intro Hbounds. unfold clamp. exact_ops.
  destruct (Rlt_dec v minValue) as [Hv|Hv].
  - apply ltb_exact in Hv. rewrite Hv. reflexivity.
  - destruct (Exact.ltb v minValue) eqn:Hlo; [apply ltb_exact in Hlo; lra|].
    apply ltb_exact_false in Hlo.
    destruct (Exact.ltb maxValue v) eqn:Hhi; [reflexivity|].
    apply ltb_exact_false in Hhi. lra.
Qed.

Lemma clamp_exact_inverted_bounds_witness :
  (clamp 5 10 0 = if Rlt_dec 5 10 then 10 else 0)%R.
Proof.
  apply (clamp_exact_inverted_bounds 5 10 0)%R. lra.
Defined.

(** *** quantile *)

Lemma sorted_nth_error_le (sorted : list R) (i j : nat) (a b : R) :
  Sorted Rle sorted -> (i <= j)%nat ->
  nth_error sorted i = Some a -> nth_error sorted j = Some b -> a <= b.
Proof.
  intro Hs. apply Sorted_StronglySorted in Hs.
  2:{ intros x y z; apply Rle_trans. }
  revert i j. induction Hs as [|x rest Hrest IH Hall]; intros i j Hij Hi Hj.
  - destruct i; discriminate.
  - destruct i as [|i]; destruct j as [|j]; cbn in Hi, Hj.
    + injection Hi as <-. injection Hj as <-. lra.
    + injection Hi as <-. apply nth_error_In in Hj.
      rewrite Forall_forall in Hall. apply Hall. exact Hj.
    + lia.
    + apply (IH i j); [lia | assumption | assumption].
Qed.

(** Strictly between 0 and 1 the quantile lies between the two values it
    reads, which are neighbours in the sorted list. *)
Lemma quantile_exact_local (sorted : list R) (q : R) :
  Sorted Rle sorted -> sorted <> [] -> 0 < q < 1 ->
  let position := INR (length sorted - 1) * q in
  exists lower upper,
    nth_error sorted (Z.to_nat (Zfloor position)) = Some lower
    /\ nth_error sorted (Z.to_nat (Zceil position)) = Some upper
    /\ quantile sorted q
       = lower + (upper - lower) * (position - IZR (Zfloor position))
    /\ lower <= quantile sorted q <= upper
    /\ (0 <= Zfloor position <= Zceil position)%Z
    /\ (Zceil position <= Zfloor position + 1)%Z.
Proof.
  intros Hs Hne Hq position.
  destruct (quantile_exact_reads sorted q Hne Hq) as [lower [upper [Hlo [Hup Hval]]]].
  fold position in Hlo, Hup, Hval.
  assert (Hn : (1 <= length sorted)%nat)
    by (destruct sorted; [congruence | cbn; lia]).
  destruct (position_bounds (length sorted) q Hn Hq) as [Hfl Hce].
  fold position in Hfl, Hce.
  pose proof (Zfloor_bound position) as [Hf1 Hf2].
  pose proof (Zceil_bound position) as [Hc1 Hc2].
  assert (Hfc : (Zfloor position <= Zceil position)%Z) by (apply le_IZR; lra).
  assert (Hcf : (Zceil position <= Zfloor position + 1)%Z).
  { assert (Zceil position < Zfloor position + 2)%Z; [|lia].
    apply lt_IZR. rewrite plus_IZR. lra. }
  assert (Hlu : lower <= upper).
  { apply (sorted_nth_error_le sorted (Z.to_nat (Zfloor position))
                               (Z.to_nat (Zceil position))); auto. lia. }
  exists lower, upper. repeat split; try assumption; try lia.
  - rewrite Hval. nra.
  - rewrite Hval. nra.
Qed.

Lemma quantile_exact_bounds (sorted : list R) (q first last : R) :
  Sorted Rle sorted ->
  nth_error sorted 0 = Some first ->
  nth_error sorted (length sorted - 1) = Some last ->
  first <= quantile sorted q <= last.
Proof.
  intros Hs Hfirst Hlast.
  assert (Hne : sorted <> []) by (intros ->; discriminate).
  assert (Hfl : first <= last).
  { apply (sorted_nth_error_le sorted 0 (length sorted - 1)); auto. lia. }
  destruct (Rle_dec q 0) as [Hq0|Hq0].
  { rewrite (quantile_exact_low sorted q first Hfirst Hq0). lra. }
  destruct (Rle_dec 1 q) as [Hq1|Hq1].
  { rewrite (quantile_exact_high sorted q last Hlast Hq1). lra. }
  destruct (quantile_exact_local sorted q Hs Hne) as
    (lower & upper & Hlo & Hup & _ & Hbetween & Hidx & _); [lra|].
  assert (first <= lower).
  { apply (sorted_nth_error_le
             sorted 0 (Z.to_nat (Zfloor (INR (length sorted - 1) * q)))
             first lower Hs); auto. lia. }
  assert (upper <= last).
  { assert (Hin : (Z.to_nat (Zceil (INR (length sorted - 1) * q))
                   < length sorted)%nat).
    { apply nth_error_Some. rewrite Hup. discriminate. }
    apply (sorted_nth_error_le
             sorted (Z.to_nat (Zceil (INR (length sorted - 1) * q)))
             (length sorted - 1) upper last Hs);
      auto. lia. }
  lra.
Qed.

Lemma quantile_exact_nondecreasing (sorted : list R) (q q' first last : R) :
  Sorted Rle sorted ->
  nth_error sorted 0 = Some first ->
  nth_error sorted (length sorted - 1) = Some last ->
  q <= q' -> quantile sorted q <= quantile sorted q'.
Proof.
  intros Hs Hfirst Hlast Hqq.
  assert (Hne : sorted <> []) by (intros ->; discriminate).
  pose proof (quantile_exact_bounds sorted q first last Hs Hfirst Hlast) as Hb.
  pose proof (quantile_exact_bounds sorted q' first last Hs Hfirst Hlast) as Hb'.
  destruct (Rle_dec q 0) as [Hq0|Hq0].
  { rewrite (quantile_exact_low sorted q first Hfirst Hq0). lra. }
  destruct (Rle_dec 1 q') as [Hq1|Hq1].
  { rewrite (quantile_exact_high sorted q' last Hlast Hq1). lra. }
  destruct (quantile_exact_local sorted q Hs Hne) as
    (lo & up & Hlo & Hup & Hval & Hbetween & Hidx & Hnext); [lra|].
  destruct (quantile_exact_local sorted q' Hs Hne) as
    (lo' & up' & Hlo' & Hup' & Hval' & Hbetween' & Hidx' & Hnext'); [lra|].
  set (p := INR (length sorted - 1) * q) in *.
  set (p' := INR (length sorted - 1) * q') in *.
  assert (Hpp : p <= p').
  { unfold p, p'. apply Rmult_le_compat_l; [apply pos_INR | exact Hqq]. }
  pose proof (Zfloor_le p p' Hpp) as Hfloor.
  pose proof (Zfloor_bound p) as [Hf1 Hf2].
  pose proof (Zceil_bound p) as [Hc1 Hc2].
  pose proof (Zfloor_bound p') as [Hf1' Hf2'].
  pose proof (Zceil_bound p') as [Hc1' Hc2'].
  destruct (Z.eq_dec (Zfloor p) (Zfloor p')) as [Hsame|Hdiff].
  - rewrite <- Hsame in *.
    assert (lo' = lo) by congruence. subst lo'.
    destruct (Z.eq_dec (Zceil p) (Zfloor p)) as [Hint|Hfrac].
    + (* p is the integer rank *)
      rewrite Hint in Hup. assert (up = lo) by congruence. subst up.
      lra.
    + assert (Hcp : Zceil p = (Zfloor p + 1)%Z) by lia.
      assert (Hcp' : Zceil p' = (Zfloor p + 1)%Z).
      { assert (Zfloor p < Zceil p')%Z; [|lia].
        apply lt_IZR. 
        assert (IZR (Zfloor p) < p).
        { destruct (Req_dec (IZR (Zfloor p)) p) as [Heq|Hneq]; [|lra].
          exfalso. apply Hfrac. apply Zceil_eq. lra. }
        lra. }
      rewrite Hcp in Hup. rewrite Hcp' in Hup'.
      assert (up' = up) by congruence. subst up'.
      assert (lo <= up).
      { apply (sorted_nth_error_le sorted (Z.to_nat (Zfloor p))
                                   (Z.to_nat (Zfloor p + 1)) lo up Hs); auto.
        lia. }
      rewrite Hval, Hval'. nra.
  - assert (up <= lo').
    { apply (sorted_nth_error_le sorted (Z.to_nat (Zceil p))
                                 (Z.to_nat (Zfloor p')) up lo' Hs); auto. lia. }
    lra.
Qed.


(** X8.  Over the reals, on a non-empty list in ascending order, [quantile]
    lies between the first and the last value for every q, and it does not
    decrease when q grows. *)
Theorem quantile_exact_monotone (sorted : list R) (q q' first last : R) :
  Sorted Rle sorted ->
  nth_error sorted 0 = Some first ->
  nth_error sorted (length sorted - 1) = Some last ->
  first <= quantile sorted q <= last
  /\ (q <= q' -> quantile sorted q <= quantile sorted q').
Proof.
  intros Hs Hfirst Hlast.
  split; [apply quantile_exact_bounds; assumption|].
  apply (quantile_exact_nondecreasing sorted q q' first last); assumption.
Qed.

Lemma quantile_exact_monotone_witness :
  (10 <= quantile [10; 20; 30] (1 / 4) <= 30
   /\ (1 / 4 <= 3 / 4 ->
       quantile [10; 20; 30] (1 / 4) <= quantile [10; 20; 30] (3 / 4)))%R.
Proof.
  apply (quantile_exact_monotone [10; 20; 30] (1 / 4) (3 / 4) 10 30)%R.
  - repeat constructor; lra.
  - reflexivity.
  - reflexivity.
Defined.

(** *** winsorize *)

Lemma clamp_exact_nondecreasing (v v' minValue maxValue : R) :
  minValue <= maxValue -> v <= v' ->
  clamp v minValue maxValue <= clamp v' minValue maxValue.
Proof.
  intros Hbounds Hvv.
  destruct (clamp_exact_cases v minValue maxValue Hbounds)
    as [[Hv Hc]|[[Hv Hc]|[Hv Hc]]];
    destruct (clamp_exact_cases v' minValue maxValue Hbounds)
      as [[Hv' Hc']|[[Hv' Hc']|[Hv' Hc']]];
    rewrite Hc, Hc'; lra.
Qed.

(** The ends of the sorted copy of a non-empty list: its least and its
    greatest value. *)
Lemma toSorted_exact_ends (values : list R) :
  values <> [] ->
  exists first last,
    nth_error (toSorted values) 0 = Some first
    /\ nth_error (toSorted values) (length (toSorted values) - 1) = Some last
    /\ In first values /\ In last values
    /\ forall v, In v values -> first <= v <= last.
Proof.
  intro Hne. destruct (toSorted_exact values) as [Hperm Hsorted].
  assert (Hlen : length (toSorted values) = length values)
    by (symmetry; apply Permutation_length; exact Hperm).
  assert (Hpos : (0 < length values)%nat)
    by (destruct values; [congruence | cbn; lia]).
  destruct (nth_error (toSorted values) 0) as [first|] eqn:Hfirst.
  2:{ apply nth_error_None in Hfirst. lia. }
  destruct (nth_error (toSorted values) (length (toSorted values) - 1))
    as [last|] eqn:Hlast.
  2:{ apply nth_error_None in Hlast. lia. }
  exists first, last.
  split; [reflexivity|]. split; [reflexivity|]. split; [|split].
  - apply (Permutation_in _ (Permutation_sym Hperm)).
    apply (nth_error_In _ _ Hfirst).
  - apply (Permutation_in _ (Permutation_sym Hperm)).
    apply (nth_error_In _ _ Hlast).
  - intros v Hv. apply (Permutation_in _ Hperm) in Hv.
    apply In_nth_error in Hv. destruct Hv as [i Hi].
    assert (Hlt : (i < length (toSorted values))%nat).
    { apply nth_error_Some. rewrite Hi. discriminate. }
    split.
    + apply (sorted_nth_error_le (toSorted values) 0 i first v Hsorted);
        [lia | exact Hfirst | exact Hi].
    + apply (sorted_nth_error_le (toSorted values) i
                                 (length (toSorted values) - 1) v last Hsorted);
        [lia | exact Hi | exact Hlast].
Qed.

Lemma winsorize_exact_bounds_ordered (values : list R) (lq uq : R) :
  lq <= uq ->
  quantile (toSorted values) lq <= quantile (toSorted values) uq.
Proof.
  intro Hq. destruct values as [|v rest].
  - cbn. lra.
  - destruct (toSorted_exact_ends (v :: rest)) as
      (first & last & Hfirst & Hlast & _); [discriminate|].
    apply (quantile_exact_nondecreasing _ lq uq first last); auto.
    apply toSorted_exact.
Qed.

Lemma winsorize_exact_within (values : list R) (lq uq lo hi : R) :
  lq <= uq ->
  Forall (fun v => lo <= v <= hi) values ->
  Forall (fun w => lo <= w <= hi) (winsorize values lq uq).
Proof.
  intros Hq Hvalues. destruct values as [|v rest]; [constructor|].
  destruct (toSorted_exact_ends (v :: rest)) as
    (first & last & Hfirst & Hlast & Hfin & Hlin & _); [discriminate|].
  rewrite Forall_forall in Hvalues.
  pose proof (Hvalues first Hfin) as Hf. pose proof (Hvalues last Hlin) as Hl.
  pose proof (quantile_exact_bounds (toSorted (v :: rest)) lq
                first last (proj2 (toSorted_exact _)) Hfirst Hlast) as HL.
  pose proof (quantile_exact_bounds (toSorted (v :: rest)) uq
                first last (proj2 (toSorted_exact _)) Hfirst Hlast) as HU.
  pose proof (winsorize_exact_bounds_ordered (v :: rest) lq uq Hq) as Hbounds.
  unfold winsorize. apply Forall_forall. intros w Hw. apply in_map_iff in Hw.
  destruct Hw as [x [<- _]].
  pose proof (clamp_exact_range x _ _ Hbounds). lra.
Qed.

(** X9.  Over the reals, [winsorize] with lowerQuantile <= upperQuantile
    has its two bounds in order, so that every output lies between them;
    the outputs stay within any interval that holds the inputs; and the
    order of two inputs is never reversed. *)
Theorem winsorize_exact_order (values : list R) (lowerQuantile upperQuantile : R) :
  lowerQuantile <= upperQuantile ->
  let lowerBound := quantile (toSorted values) lowerQuantile in
  let upperBound := quantile (toSorted values) upperQuantile in
  let winsorized := winsorize values lowerQuantile upperQuantile in
  lowerBound <= upperBound
  /\ Forall (fun w => lowerBound <= w <= upperBound) winsorized
  /\ (forall lo hi, Forall (fun v => lo <= v <= hi) values ->
                    Forall (fun w => lo <= w <= hi) winsorized)
  /\ (forall i j vi vj wi wj,
        nth_error values i = Some vi -> nth_error values j = Some vj ->
        nth_error winsorized i = Some wi -> nth_error winsorized j = Some wj ->
        vi <= vj -> wi <= wj).
Proof.
  intros Hq lowerBound upperBound winsorized.
  assert (Hbounds : lowerBound <= upperBound)
    by (apply winsorize_exact_bounds_ordered; exact Hq).
  assert (Hin : Forall (fun w => lowerBound <= w <= upperBound) winsorized).
  { unfold winsorized, winsorize. fold lowerBound upperBound.
    apply Forall_forall. intros w Hw. apply in_map_iff in Hw.
    destruct Hw as [v [<- _]]. apply clamp_exact_range. exact Hbounds. }
  split; [exact Hbounds|]. split; [exact Hin|]. split.
  - intros lo hi Hvalues. apply winsorize_exact_within; assumption.
  - intros i j vi vj wi wj Hi Hj Hwi Hwj Hle.
    unfold winsorized in Hwi, Hwj. rewrite winsorize_nth_error in Hwi, Hwj.
    rewrite Hi in Hwi. rewrite Hj in Hwj. cbn in Hwi, Hwj.
    injection Hwi as <-. injection Hwj as <-.
    apply clamp_exact_nondecreasing; assumption.
Qed.

Lemma winsorize_exact_order_witness :
  (quantile (toSorted [3; 1; 2]) (1 / 4) <= quantile (toSorted [3; 1; 2]) (3 / 4)
   /\ Forall (fun w => quantile (toSorted [3; 1; 2]) (1 / 4) <= w
                       <= quantile (toSorted [3; 1; 2]) (3 / 4))
             (winsorize [3; 1; 2] (1 / 4) (3 / 4)))%R.
Proof.
  destruct (winsorize_exact_order [3; 1; 2] (1 / 4) (3 / 4))%R
    as (Hbounds & Hin & _); [lra|].
  split; assumption.
Defined.

(** X10.  Over the reals, [winsorize] with lowerQuantile <= 0 and
    upperQuantile >= 1 clamps to the least and the greatest value: it
    returns its input. *)
Theorem winsorize_exact_full_range (values : list R) (lowerQuantile upperQuantile : R) :
  lowerQuantile <= 0 -> 1 <= upperQuantile ->
  winsorize values lowerQuantile upperQuantile = values.
Proof.
  intros Hlq Huq. destruct values as [|v0 rest]; [reflexivity|].
  destruct (toSorted_exact_ends (v0 :: rest)) as
    (first & last & Hfirst & Hlast & _ & _ & Hall); [discriminate|].
  unfold winsorize.
  rewrite (quantile_exact_low _ lowerQuantile first Hfirst Hlq).
  rewrite (quantile_exact_high _ upperQuantile last Hlast Huq).
  rewrite <- (map_id (v0 :: rest)) at 2.
  apply map_ext_in. intros v Hv. specialize (Hall v Hv).
  destruct (clamp_exact_cases v first last) as [[Hc _]|[[Hc _]|[_ Hc]]];
    [lra | lra | lra | exact Hc].
Qed.

Lemma winsorize_exact_full_range_witness :
  (winsorize [3; 1; 2] 0 1 = [3; 1; 2])%R.
Proof.
  apply (winsorize_exact_full_range [3; 1; 2] 0 1)%R; lra.
Defined.

End ExactProperties.

(** ** Properties of the analysis *)

Section AnalysisControlFlow.

Context {num : Type} `{Number num}.

Lemma collect_app (values tail : list (option num)) (i : nat) :
  collect (values ++ tail) i
  = collect values i ++ collect tail (i + length values).
Proof.
  revert i. induction values as [|v rest IH]; intro i; cbn [app collect length].
  - rewrite Nat.add_0_r. reflexivity.
  - rewrite IH. replace (S i + length rest) with (i + S (length rest)) by lia.
    destruct v; reflexivity.
Qed.

(** X11.  Missing entries at the end of the series do not change the
    analysis, in every arithmetic. *)
Theorem analysis_trailing_missing (values tail : list (option num)) :
  Forall missing tail ->
  computeLineChartAnalysis (values ++ tail) = computeLineChartAnalysis values.
Proof.
  intro Hmissing.
  assert (Hiv : indexedValuesOf (values ++ tail) = indexedValuesOf values).
  { unfold indexedValuesOf. rewrite collect_app.
    rewrite (collect_missing tail Hmissing). apply app_nil_r. }
  unfold computeLineChartAnalysis. rewrite Hiv. reflexivity.
Qed.

(** The trend of two observations or more is 'undefined' only through a
    null rSquared. *)
Lemma trendOf_undefined (indexedValues : list (Entry num)) :
  trendOf indexedValues = trend_undefined <->
  (standardDeviationOf indexedValues =? zero)%num = false
  /\ rSquaredOf indexedValues = None.
Proof.
  unfold trendOf.
  destruct (standardDeviationOf indexedValues =? zero)%num.
  - split; [discriminate | intros [Hsd _]; discriminate].
  - destruct (rSquaredOf indexedValues) as [r2|].
    + split; [|intros [_ Hr]; discriminate].
      unfold baseTrendOf, upgradeTrend, gtb, geb.
      repeat match goal with
             | |- context [if ?b then _ else _] => destruct b
             end; discriminate.
    + split; auto.
Qed.

(** X13.  In every arithmetic the trend is 'undefined' exactly for the
    series without observations and for the series of two observations or
    more whose standardDeviation is not 0 while rSquared is null; so never
    with exactly one observation, and never when rSquared is a number. *)
Theorem trend_undefined_iff (values : list (option num)) :
  let indexedValues := indexedValuesOf values in
  let r := computeLineChartAnalysis values in
  trend (interpretation r) = trend_undefined <->
  indexedValues = []
  \/ (2 <= length indexedValues
      /\ (standardDeviation r =? zero)%num = false
      /\ rSquared r = None).
Proof.
  intros indexedValues r. subst r.
  destruct indexedValues as [|e1 [|e2 rest]] eqn:Hiv.
  - rewrite (analysis_empty values Hiv). cbn. tauto.
  - rewrite (analysis_single values e1 Hiv). cbn.
    split; [discriminate|]. intros [Hnil|[Hn _]]; [discriminate | lia].
  - assert (Hn : 2 <= length (indexedValuesOf values)).
    { fold indexedValues. rewrite Hiv. cbn. lia. }
    rewrite (analysis_general values Hn).
    cbn [interpretation trend standardDeviation rSquared].
    rewrite trendOf_undefined. fold indexedValues. rewrite Hiv.
    split.
    + intros [Hsd Hr]. right. split; [cbn; lia|]. split; assumption.
    + intros [Hnil|[_ [Hsd Hr]]]; [discriminate|]. split; assumption.
Qed.

(** *** Missing entries at the start: the index axis is shifted *)

Lemma collect_shift (values : list (option num)) (i k : nat) :
  collect values (i + k) = map (shiftEntry k) (collect values i).
Proof.
  revert i. induction values as [|v rest IH]; intro i; cbn [collect map].
  - reflexivity.
  - change (S (i + k)) with (S i + k). rewrite IH.
    destruct v; reflexivity.
Qed.

Lemma fold_left_through_map {A B C : Type} (f : A -> B -> A) (g : C -> B)
      (l : list C) (a : A) :
  fold_left f (map g l) a = fold_left (fun acc c => f acc (g c)) l a.
Proof.
  revert a. induction l as [|c rest IH]; intro a; cbn; [reflexivity | apply IH].
Qed.

Lemma shift_meanOf (k : nat) (indexedValues : list (Entry num)) :
  meanOf (map (shiftEntry k) indexedValues) = meanOf indexedValues.
Proof.
  unfold meanOf. rewrite length_map, fold_left_through_map. reflexivity.
Qed.

Lemma shift_standardDeviationOf (k : nat) (indexedValues : list (Entry num)) :
  standardDeviationOf (map (shiftEntry k) indexedValues)
  = standardDeviationOf indexedValues.
Proof.
  unfold standardDeviationOf, varianceSumOf.
  rewrite shift_meanOf, length_map, fold_left_through_map. reflexivity.
Qed.

Lemma leading_missing_statistics (gap values : list (option num)) :
  Forall missing gap ->
  let r := computeLineChartAnalysis values in
  let r' := computeLineChartAnalysis (gap ++ values) in
  mean r' = mean r
  /\ standardDeviation r' = standardDeviation r
  /\ coefficientOfVariation r' = coefficientOfVariation r
  /\ volatility (interpretation r') = volatility (interpretation r).
Proof.
  intros Hmissing r r'. subst r r'.
  assert (Hiv : indexedValuesOf (gap ++ values)
                = map (shiftEntry (length gap)) (indexedValuesOf values)).
  { unfold indexedValuesOf. rewrite collect_app.
    rewrite (collect_missing gap Hmissing). cbn [app].
    apply (collect_shift values 0 (length gap)). }
  destruct (indexedValuesOf values) as [|e1 [|e2 rest]] eqn:Hvalues.
  - rewrite (analysis_empty values Hvalues).
    rewrite (analysis_empty (gap ++ values)) by (rewrite Hiv; reflexivity).
    repeat split.
  - rewrite (analysis_single values e1 Hvalues).
    rewrite (analysis_single (gap ++ values) (shiftEntry (length gap) e1))
      by (rewrite Hiv; reflexivity).
    repeat split.
  - assert (Hn : 2 <= length (indexedValuesOf values))
      by (rewrite Hvalues; cbn; lia).
    assert (Hn' : 2 <= length (indexedValuesOf (gap ++ values)))
      by (rewrite Hiv, length_map; cbn; lia).
    rewrite (analysis_general values Hn), (analysis_general (gap ++ values) Hn').
    cbv zeta. rewrite Hiv, Hvalues.
    cbn [mean standardDeviation coefficientOfVariation interpretation
         volatility].
    rewrite shift_meanOf, shift_standardDeviationOf. repeat split.
Qed.

End AnalysisControlFlow.

Lemma trend_undefined_iff_witness :
  trend (interpretation
           (computeLineChartAnalysis (map Some (repeat 5 21 ++ [1000])%float)))
  = trend_undefined.
Proof.
  apply (trend_undefined_iff (map Some (repeat 5 21 ++ [1000])%float)).
  right. split; [cbn; lia|]. split; vm_compute; reflexivity.
Defined.

(** X14.  In every arithmetic, missing entries at the start of the series
    leave mean, standardDeviation, coefficientOfVariation and volatility as
    they are: these do not read the index.  Slope, rSquared and trend are
    computed from the shifted indices, and in binary64 they can change: the
    series 16, 12, 8, 12 has rSquared 0.40000000000000013 and trend
    'strong', and after three missing entries rSquared 0.39999999999999969
    and trend 'weak'. *)
Theorem analysis_leading_missing :
  (forall (num : Type) (N : Number num) (gap values : list (option num)),
      Forall missing gap ->
      let r := computeLineChartAnalysis values in
      let r' := computeLineChartAnalysis (gap ++ values) in
      mean r' = mean r
      /\ standardDeviation r' = standardDeviation r
      /\ coefficientOfVariation r' = coefficientOfVariation r
      /\ volatility (interpretation r') = volatility (interpretation r))
  /\ (let values := [Some 16; Some 12; Some 8; Some 12]%float in
      let r := computeLineChartAnalysis values in
      let r' := computeLineChartAnalysis ([None; None; None] ++ values) in
      rSquared r = Some 0.40000000000000013%float
      /\ trend (interpretation r) = strong
      /\ rSquared r' = Some 0.39999999999999969%float
      /\ trend (interpretation r') = weak).
Proof.
  split.
  - intros num N gap values. apply leading_missing_statistics.
  - cbv zeta. repeat split; vm_compute; reflexivity.
Qed.

Lemma analysis_leading_missing_witness :
  let r := computeLineChartAnalysis [Some 1; Some 2; Some 4]%float in
  let r' := computeLineChartAnalysis
              ([None; None] ++ [Some 1; Some 2; Some 4])%float in
  mean r' = mean r
  /\ standardDeviation r' = standardDeviation r
  /\ coefficientOfVariation r' = coefficientOfVariation r
  /\ volatility (interpretation r') = volatility (interpretation r).
Proof.
  apply (proj1 analysis_leading_missing float binary64 [None; None]
               [Some 1; Some 2; Some 4]%float).
  repeat constructor.
Defined.

Lemma analysis_trailing_missing_witness :
  computeLineChartAnalysis ([Some 1; Some 2; Some 4] ++ [None; None])%float
  = computeLineChartAnalysis [Some 1; Some 2; Some 4]%float.
Proof.
  apply (analysis_trailing_missing [Some 1; Some 2; Some 4]%float [None; None]).
  repeat constructor.
Defined.

Section AnalysisExact.

Local Open Scope R_scope.

(** X16.  Over the reals, with two observations or more: the volatility is
    'undefined' when the mean is 0; for a positive mean it is 'very_stable'
    below a standardDeviation of a tenth of the mean, 'moderate' from there
    to below a quarter of the mean, and 'volatile' from a quarter on; for a
    negative mean it is 'very_stable' whatever the spread, the coefficient
    of variation being negative or 0. *)
Theorem volatility_thresholds (values : list (option R)) :
  let r := computeLineChartAnalysis values in
  (2 <= length (indexedValuesOf values))%nat ->
  (mean r = 0 -> volatility (interpretation r) = volatility_undefined)
  /\ (mean r < 0 -> volatility (interpretation r) = very_stable)
  /\ (0 < mean r ->
      (volatility (interpretation r) = very_stable
       <-> standardDeviation r < mean r / 10)
      /\ (volatility (interpretation r) = moderate
          <-> mean r / 10 <= standardDeviation r < mean r / 4)
      /\ (volatility (interpretation r) = volatile
          <-> mean r / 4 <= standardDeviation r)).
Proof.
  intros r Hn. subst r. rewrite (analysis_general values Hn).
  cbn [mean standardDeviation interpretation volatility].
  set (m := meanOf (indexedValuesOf values)).
  set (sd := standardDeviationOf (indexedValuesOf values)).
  assert (Hsd : 0 <= sd).
  { unfold sd, standardDeviationOf. exact_ops. apply sqrt_pos. }
  clearbody m sd.
  unfold volatilityOf. exact_ops.
  destruct (Exact.eqb m 0) eqn:Hm.
  { apply eqb_exact in Hm. split; [reflexivity|]. split.
  - intro Hlt. lra.
  - intro Hlt. lra. }
  apply eqb_exact_false in Hm.
  split; [intro; contradiction|].
  assert (Hcv : sd = sd / m * m) by (field; exact Hm).
  set (cv := sd / m) in *. clearbody cv.
  destruct (Exact.ltb cv (1 / 10)) eqn:H10.
  - apply ltb_exact in H10. split; [reflexivity|].
    intro Hpos. split; [|split].
    + split; [intros _; nra | reflexivity].
    + split; [discriminate | intros [Hlo Hhi]; exfalso; nra].
    + split; [discriminate | intro Hlo; exfalso; nra].
  - apply ltb_exact_false in H10.
    split.
    { intro Hneg. exfalso. nra. }
    intro Hpos.
    destruct (Exact.ltb cv (25 / 100)) eqn:H25.
    + apply ltb_exact in H25. split; [|split].
      * split; [discriminate | intro Hlo; exfalso; nra].
      * split; [intros _; split; nra | reflexivity].
      * split; [discriminate | intro Hlo; exfalso; nra].
    + apply ltb_exact_false in H25. split; [|split].
      * split; [discriminate | intro Hlo; exfalso; nra].
      * split; [discriminate | intros [Hlo Hhi]; exfalso; nra].
      * split; [intros _; nra | reflexivity].
Qed.

Lemma volatility_thresholds_witness :
  let r := computeLineChartAnalysis [Some 1; Some 3]%R in
  (mean r = 0 -> volatility (interpretation r) = volatility_undefined)
  /\ (mean r < 0 -> volatility (interpretation r) = very_stable)
  /\ (0 < mean r ->
      (volatility (interpretation r) = very_stable
       <-> standardDeviation r < mean r / 10)
      /\ (volatility (interpretation r) = moderate
          <-> mean r / 10 <= standardDeviation r < mean r / 4)
      /\ (volatility (interpretation r) = volatile
          <-> mean r / 4 <= standardDeviation r)).
Proof.
  apply (volatility_thresholds [Some 1; Some 3]%R). cbn. lia.
Defined.

End AnalysisExact.

(** ** NaN in binary64 *)

Section Binary64NaN.

Lemma is_nan_true_spec (x : float) :
  PrimFloat.is_nan x = true -> Prim2SF x = S754_nan.
Proof.
  intro Hnan. destruct (Prim2SF x) eqn:Hx; try reflexivity;
    assert (Hnot : PrimFloat.is_nan x = false)
      by (apply is_nan_spec; rewrite Hx; discriminate);
    congruence.
Qed.

Lemma ltb_nan_l (x y : float) :
  PrimFloat.is_nan x = true -> (x <? y)%float = false.
Proof.
  intro Hnan. rewrite FloatAxioms.ltb_spec, (is_nan_true_spec x Hnan). reflexivity.
Qed.

Lemma ltb_nan_r (x y : float) :
  PrimFloat.is_nan y = true -> (x <? y)%float = false.
Proof.
  intro Hnan. rewrite FloatAxioms.ltb_spec, (is_nan_true_spec y Hnan).
  destruct (Prim2SF x) as [| | |s m e]; try destruct s; reflexivity.
Qed.

Lemma leb_nan_l (x y : float) :
  PrimFloat.is_nan x = true -> (x <=? y)%float = false.
Proof.
  intro Hnan. rewrite FloatAxioms.leb_spec, (is_nan_true_spec x Hnan). reflexivity.
Qed.

Lemma leb_nan_r (x y : float) :
  PrimFloat.is_nan y = true -> (x <=? y)%float = false.
Proof.
  intro Hnan. rewrite FloatAxioms.leb_spec, (is_nan_true_spec y Hnan).
  destruct (Prim2SF x) as [| | |s m e]; try destruct s; reflexivity.
Qed.

(** X18.  In binary64 [clamp] returns a NaN value as it is, whatever the
    bounds, and with two NaN bounds it returns every value as it is: each
    comparison with NaN is false. *)
Theorem clamp_binary64_nan (v minValue maxValue : float) :
  PrimFloat.is_nan v = true
  \/ (PrimFloat.is_nan minValue = true /\ PrimFloat.is_nan maxValue = true) ->
  clamp v minValue maxValue = v.
Proof.
  intro Hnan. unfold clamp, gtb. cbn [ltb binary64].
  destruct Hnan as [Hv|[Hmin Hmax]].
  - rewrite (ltb_nan_l v minValue Hv), (ltb_nan_r maxValue v Hv). reflexivity.
  - rewrite (ltb_nan_r v minValue Hmin), (ltb_nan_l maxValue v Hmax).
    reflexivity.
Qed.

Lemma clamp_binary64_nan_witness :
  clamp PrimFloat.nan 0%float 1%float = PrimFloat.nan
  /\ clamp 5%float PrimFloat.nan PrimFloat.nan = 5%float.
Proof.
  split.
  - apply (clamp_binary64_nan PrimFloat.nan 0%float 1%float). left. reflexivity.
  - apply (clamp_binary64_nan 5%float PrimFloat.nan PrimFloat.nan).
    right. split; reflexivity.
Defined.

(** X19.  In binary64 [quantile] at a NaN quantile value is NaN on every
    non-empty list: neither bound test holds, and the two array reads at
    the NaN position give [undefined]. *)
Theorem quantile_binary64_nan (sortedValues : list float) (quantileValue : float) :
  sortedValues <> [] ->
  PrimFloat.is_nan quantileValue = true ->
  quantile sortedValues quantileValue = PrimFloat.nan.
Proof.
  intros Hne Hnan. unfold quantile, geb.
  cbn [zero one leb mul sub add floor ceil of_nat to_index undefined_arith
       binary64].
  destruct (Nat.eqb (length sortedValues) 0) eqn:Hlen.
  { apply Nat.eqb_eq in Hlen. destruct sortedValues; [congruence | discriminate]. }
  rewrite (leb_nan_l quantileValue _ Hnan), (leb_nan_r _ quantileValue Hnan).
  set (position := (Binary64.of_Z (Z.of_nat (length sortedValues - 1))
                    * quantileValue)%float).
  assert (Hpos : Prim2SF position = S754_nan).
  { unfold position. rewrite FloatAxioms.mul_spec, (is_nan_true_spec _ Hnan).
    destruct (Prim2SF (Binary64.of_Z (Z.of_nat (length sortedValues - 1))))
      as [| | |s m e]; reflexivity. }
  assert (Hfloor : Binary64.floor position = position).
  { unfold Binary64.floor. rewrite Hpos. reflexivity. }
  unfold at_key. cbn [to_index binary64].
  rewrite Hfloor. unfold Binary64.to_index, Binary64.to_Z. rewrite Hpos.
  reflexivity.
Qed.

Lemma quantile_binary64_nan_witness :
  quantile [1; 2; 3]%float PrimFloat.nan = PrimFloat.nan.
Proof.
  apply (quantile_binary64_nan [1; 2; 3]%float PrimFloat.nan);
    [discriminate | reflexivity].
Defined.

End Binary64NaN.

(** ** Routes *)

Section RouteFacts.

Import (notations) String Ascii.
Import Routes.
Local Open Scope string_scope.


Lemma split_without_separator (sep : Ascii.ascii) (s : String.string) :
  ~ In sep (String.list_ascii_of_string s) -> split sep s = [s].
Proof.
  induction s as [|c rest IH]; intro Hsep; [reflexivity|].
  cbn [split]. cbn in Hsep.
  destruct (Ascii.eqb c sep) eqn:Hc.
  - apply Ascii.eqb_eq in Hc. exfalso. apply Hsep. left. exact Hc.
  - rewrite IH by (intro Hin; apply Hsep; right; exact Hin). reflexivity.
Qed.

Lemma split_at_separator (sep : Ascii.ascii) (before after : String.string) :
  ~ In sep (String.list_ascii_of_string before) ->
  split sep (before ++ String.String sep after) = before :: split sep after.
Proof.
  induction before as [|c rest IH]; intro Hsep.
  - cbn. rewrite Ascii.eqb_refl. reflexivity.
  - cbn in Hsep. cbn [String.append split].
    destruct (Ascii.eqb c sep) eqn:Hc.
    + apply Ascii.eqb_eq in Hc. exfalso. apply Hsep. left. exact Hc.
    + rewrite IH by (intro Hin; apply Hsep; right; exact Hin). reflexivity.
Qed.

Lemma split_not_empty (sep : Ascii.ascii) (s : String.string) : split sep s <> [].
Proof.
  destruct s as [|c rest]; cbn; [discriminate|].
  destruct (Ascii.eqb c sep); [discriminate|].
  destruct (split sep rest); discriminate.
Qed.

Lemma split_first_piece (sep c : Ascii.ascii) (rest : String.string) :
  Ascii.eqb c sep = false ->
  exists piece pieces,
    split sep (String.String c rest) = String.String c piece :: pieces.
Proof.
  intro Hc. cbn [split]. rewrite Hc.
  destruct (split sep rest) as [|piece pieces]; eauto.
Qed.

(** X20.  [packageRoute] on a scoped name: for '@scope/pkg' org is
    '@scope' and name is 'pkg', so that org + '/' + name is the package
    name again; a further '/rest' is dropped; without a '/' org is the whole
    name and name is ''.  Here scope and pkg hold no '/'. *)
Theorem packageRoute_scoped
        (scope pkg rest : String.string) (version : option String.string) :
  ~ In "/"%char (String.list_ascii_of_string scope) ->
  ~ In "/"%char (String.list_ascii_of_string pkg) ->
  let org_of packageName := param "org" (params (packageRoute packageName version)) in
  let name_of packageName := param "name" (params (packageRoute packageName version)) in
  (org_of ("@" ++ scope ++ "/" ++ pkg) = Some ("@" ++ scope)
   /\ name_of ("@" ++ scope ++ "/" ++ pkg) = Some pkg)
  /\ (org_of ("@" ++ scope ++ "/" ++ pkg ++ "/" ++ rest) = Some ("@" ++ scope)
      /\ name_of ("@" ++ scope ++ "/" ++ pkg ++ "/" ++ rest) = Some pkg)
  /\ (org_of ("@" ++ scope) = Some ("@" ++ scope)
      /\ name_of ("@" ++ scope) = Some "").
Proof.
  intros Hscope Hpkg org_of name_of.
  assert (Hat : ~ In "/"%char (String.list_ascii_of_string ("@" ++ scope))).
  { cbn. intros [Heq|Hin]; [discriminate | contradiction]. }
  assert (H1 : orgAndName ("@" ++ scope ++ "/" ++ pkg)
               = (Some ("@" ++ scope), pkg)).
  { unfold orgAndName.
    change ("@" ++ scope ++ "/" ++ pkg)
      with (("@" ++ scope) ++ String.String "/" pkg).
    change (startsWith (("@" ++ scope) ++ String.String "/" pkg) "@") with true.
    cbv iota. rewrite (split_at_separator _ _ _ Hat).
    rewrite (split_without_separator _ _ Hpkg). reflexivity. }
  assert (H2 : orgAndName ("@" ++ scope ++ "/" ++ pkg ++ "/" ++ rest)
               = (Some ("@" ++ scope), pkg)).
  { unfold orgAndName.
    change ("@" ++ scope ++ "/" ++ pkg ++ "/" ++ rest)
      with (("@" ++ scope) ++ String.String "/" (pkg ++ String.String "/" rest)).
    change (startsWith (("@" ++ scope) ++ _) "@") with true.
    cbv iota. rewrite (split_at_separator _ _ _ Hat).
    rewrite (split_at_separator _ _ _ Hpkg). reflexivity. }
  assert (H3 : orgAndName ("@" ++ scope) = (Some ("@" ++ scope), "")).
  { unfold orgAndName.
    change (startsWith ("@" ++ scope) "@") with true.
    cbv iota. rewrite (split_without_separator _ _ Hat). reflexivity. }
  unfold org_of, name_of, packageRoute. rewrite H1, H2, H3.
  destruct (truthy version); cbn; auto.
Qed.

Lemma packageRoute_scoped_witness :
  (param "org" (params (packageRoute "@nuxt/kit" None)) = Some "@nuxt"
   /\ param "name" (params (packageRoute "@nuxt/kit" None)) = Some "kit")
  /\ (param "org" (params (packageRoute "@nuxt/kit/dist" None)) = Some "@nuxt"
      /\ param "name" (params (packageRoute "@nuxt/kit/dist" None)) = Some "kit")
  /\ (param "org" (params (packageRoute "@nuxt" None)) = Some "@nuxt"
      /\ param "name" (params (packageRoute "@nuxt" None)) = Some "").
Proof.
  apply (packageRoute_scoped "nuxt" "kit" "dist" None).
  - cbn. intuition discriminate.
  - cbn. intuition discriminate.
Defined.

(** X21.  [packageRoute] on a name that does not start with '@' has org ''
    and the whole name as name, slashes included.  For every name the
    version only selects the route: a non-empty version gives
    'package-version' with that version; a missing or empty version gives
    'package' without a version param; org and name are the same in both. *)
Theorem packageRoute_version
        (packageName : String.string) (version : option String.string) :
  let r := packageRoute packageName version in
  (startsWith packageName "@" = false ->
   param "org" (params r) = Some "" /\ param "name" (params r) = Some packageName)
  /\ param "org" (params r) = param "org" (params (packageRoute packageName None))
  /\ param "name" (params r) = param "name" (params (packageRoute packageName None))
  /\ ((exists v, version = Some v /\ v <> "") ->
      name r = "package-version" /\ param "version" (params r) = version)
  /\ (version = None \/ version = Some "" ->
      name r = "package" /\ param "version" (params r) = None).
Proof.
  intro r. subst r. unfold packageRoute.
  destruct (orgAndName packageName) as [org name] eqn:Hparts.
  split; [|split; [|split; [|split]]].
  - intro Hat. unfold orgAndName in Hparts. rewrite Hat in Hparts.
    cbn in Hparts. injection Hparts as <- <-.
    destruct (truthy version); cbn; auto.
  - destruct (truthy version); reflexivity.
  - destruct (truthy version); reflexivity.
  - intros [v [-> Hv]]. destruct v as [|c v]; [congruence|]. cbn. auto.
  - intros [->| ->]; cbn; auto.
Qed.

(** X22.  [diffRoute] takes its packageName param from the name that
    [packageRoute] computes; its org is that of [packageRoute] for a name
    starting with '@', where it starts with '@' too, and is [undefined]
    (never '') for every other name; versionRange is the two versions
    joined by '...'. *)
Theorem diffRoute_params (packageName fromVersion toVersion : String.string) :
  let r := diffRoute packageName fromVersion toVersion in
  let p := packageRoute packageName None in
  param "packageName" (params r) = param "name" (params p)
  /\ (startsWith packageName "@" = true ->
      param "org" (params r) = param "org" (params p)
      /\ exists rest, param "org" (params r) = Some ("@" ++ rest))
  /\ (startsWith packageName "@" = false -> param "org" (params r) = None)
  /\ param "versionRange" (params r) = Some (fromVersion ++ "..." ++ toVersion).
Proof.
  intros r p. subst r p. unfold diffRoute, packageRoute.
  destruct (orgAndName packageName) as [org name] eqn:Hparts.
  cbn. split; [reflexivity|]. split; [|split; [|reflexivity]].
  - intro Hat. unfold orgAndName in Hparts. rewrite Hat in Hparts.
    destruct packageName as [|c rest]; [discriminate|].
    cbn in Hat. apply Ascii.eqb_eq in Hat. subst c.
    destruct (split_first_piece "/" "@" rest eq_refl) as [piece [pieces Hsplit]].
    rewrite Hsplit in Hparts. cbn in Hparts. injection Hparts as <- _.
    cbn. split; [reflexivity|]. exists piece. reflexivity.
  - intro Hat. unfold orgAndName in Hparts. rewrite Hat in Hparts.
    cbn in Hparts. injection Hparts as <- _. reflexivity.
Qed.

End RouteFacts.

(** ** The versions of the bar chart *)

Section VersionsBarFacts.

Import VersionsBar.

Context {num : Type} `{Number num}.

Lemma versionsFrom_nth_error (series : list (option num))
      (datapointLabels : list String.string) (numberFormatter : num -> String.string)
      (i k : nat) (v : Version num) :
  nth_error (versionsFrom series datapointLabels numberFormatter i) k = Some v ->
  index v = i + k.
Proof.
  revert i k. induction series as [|value rest IH]; intros i k Hk.
  - destruct k; discriminate.
  - destruct k as [|k]; cbn in Hk.
    + injection Hk as <-. cbn. lia.
    + apply IH in Hk. lia.
Qed.

Lemma versionsFrom_length (series : list (option num))
      (datapointLabels : list String.string) (numberFormatter : num -> String.string)
      (i : nat) :
  length (versionsFrom series datapointLabels numberFormatter i) = length series.
Proof.
  revert i. induction series as [|value rest IH]; intro i; cbn; [reflexivity|].
  rewrite IH. reflexivity.
Qed.

Lemma versionsFrom_without (series : list (option num))
      (datapointLabels : list String.string) (numberFormatter : num -> String.string)
      (i j : nat) :
  let vs := versionsFrom series datapointLabels numberFormatter i in
  filter (fun v => negb (Nat.eqb (index v) j)) vs
  = if Nat.ltb j i then vs else firstn (j - i) vs ++ skipn (S (j - i)) vs.
Proof.
  revert i. induction series as [|value rest IH]; intro i; cbn zeta.
  - cbn [versionsFrom filter skipn]. rewrite firstn_nil.
    destruct (Nat.ltb j i); reflexivity.
  - cbn [versionsFrom filter index]. specialize (IH (S i)). cbn zeta in IH.
    rewrite IH.
    destruct (Nat.ltb j i) eqn:Hji.
    + apply Nat.ltb_lt in Hji.
      replace (Nat.eqb i j) with false by (symmetry; apply Nat.eqb_neq; lia).
      replace (Nat.ltb j (S i)) with true by (symmetry; apply Nat.ltb_lt; lia).
      reflexivity.
    + apply Nat.ltb_ge in Hji.
      destruct (Nat.eqb i j) eqn:Hij.
      * apply Nat.eqb_eq in Hij. subst j.
        replace (Nat.ltb i (S i)) with true by (symmetry; apply Nat.ltb_lt; lia).
        rewrite Nat.sub_diag. reflexivity.
      * apply Nat.eqb_neq in Hij.
        replace (Nat.ltb j (S i)) with false by (symmetry; apply Nat.ltb_ge; lia).
        replace (j - i) with (S (j - S i)) by lia.
        reflexivity.
Qed.

Lemma filter_rev_comm {A : Type} (f : A -> bool) (l : list A) :
  filter f (rev l) = rev (filter f l).
Proof.
  induction l as [|a rest IH]; [reflexivity|].
  cbn [rev filter]. rewrite filter_app, IH. cbn [filter].
  destruct (f a); cbn [rev]; [reflexivity | apply app_nil_r].
Qed.

Lemma reduce_max_In (rest : list (Version num)) (first : Version num) :
  In (fold_left (fun max current =>
                   if (rawDownloads current >? rawDownloads max)%num
                   then current else max) rest first)
     (first :: rest).
Proof.
  revert first. induction rest as [|current rest IH]; intro first.
  - left. reflexivity.
  - cbn [fold_left].
    destruct (rawDownloads current >? rawDownloads first)%num.
    + right. apply IH.
    + destruct (IH first) as [Heq|Hin]; [left; exact Heq | right; right; exact Hin].
Qed.

(** The versions handed to the per-version text: all but the chosen one,
    last version first. *)
Lemma otherVersions_structure
        (series : list (option num)) (datapointLabels : list String.string)
        (numberFormatter : num -> String.string) :
  series <> [] ->
  let vs := versions series datapointLabels numberFormatter in
  exists max,
    versionWithMaxDownloads vs = Some max
    /\ nth_error vs (index max) = Some max
    /\ otherVersions vs = rev (firstn (index max) vs ++ skipn (S (index max)) vs)
    /\ length (otherVersions vs) = length series - 1
    /\ (length series = 1 ->
        forall t, per_version_analysis vs t = String.EmptyString).
Proof.
  intros Hne vs.
  destruct (versionWithMaxDownloads vs) as [max|] eqn:Hmax.
  2:{ unfold vs, versions in Hmax. destruct series; [congruence | discriminate]. }
  exists max. split; [reflexivity|].
  assert (Hin : In max vs).
  { unfold versionWithMaxDownloads in Hmax. destruct vs as [|first rest];
      [discriminate|]. injection Hmax as <-. apply reduce_max_In. }
  apply In_nth_error in Hin. destruct Hin as [k Hk].
  assert (Hidx : index max = k).
  { unfold vs, versions in Hk. apply versionsFrom_nth_error in Hk. lia. }
  assert (Hother : otherVersions vs
                   = rev (firstn (index max) vs ++ skipn (S (index max)) vs)).
  { unfold otherVersions. rewrite Hmax, filter_rev_comm. f_equal.
    pose proof (versionsFrom_without series datapointLabels numberFormatter
                                     0 (index max)) as Hw.
    cbn zeta in Hw. fold (versions series datapointLabels numberFormatter) in Hw.
    fold vs in Hw. rewrite Nat.sub_0_r in Hw. exact Hw. }
  assert (Hcount : length (otherVersions vs) = length series - 1).
  { rewrite Hother, length_rev, length_app, length_firstn, length_skipn.
    assert (Hlen : length vs = length series) by apply versionsFrom_length.
    assert (Hlt : k < length vs)
      by (apply nth_error_Some; rewrite Hk; discriminate).
    lia. }
  split; [rewrite Hidx; exact Hk|]. split; [exact Hother|].
  split; [exact Hcount|].
  intros Hone t. unfold per_version_analysis.
  destruct (otherVersions vs) as [|v rest]; [reflexivity|].
  cbn [length] in Hcount. lia.
Qed.

End VersionsBarFacts.

Section VersionsBarExact.

Import VersionsBar.
Local Open Scope R_scope.

Lemma reduce_max_first (rest before middle : list (Version R)) (acc : Version R) :
  (forall v, In v before -> rawDownloads v < rawDownloads acc) ->
  (forall v, In v middle -> rawDownloads v <= rawDownloads acc) ->
  let max := fold_left (fun max current =>
                          if (rawDownloads current >? rawDownloads max)%num
                          then current else max) rest acc in
  exists earlier later,
    before ++ acc :: middle ++ rest = earlier ++ max :: later
    /\ (forall v, In v earlier -> rawDownloads v < rawDownloads max)
    /\ (forall v, In v later -> rawDownloads v <= rawDownloads max).
Proof.
  revert before middle acc.
  induction rest as [|current rest IH]; intros before middle acc Hbefore Hmiddle.
  - cbn. exists before, middle. rewrite app_nil_r. auto.
  - cbn [fold_left]. exact_ops.
    destruct (Exact.ltb (rawDownloads acc) (rawDownloads current)) eqn:Hcmp.
    + apply ltb_exact in Hcmp.
      destruct (IH (before ++ acc :: middle) [] current) as
        (earlier & later & Heq & Hearlier & Hlater).
      * intros v Hv. apply in_app_or in Hv. destruct Hv as [Hv|[<-|Hv]].
        -- specialize (Hbefore v Hv). lra.
        -- exact Hcmp.
        -- specialize (Hmiddle v Hv). lra.
      * intros v [].
      * exists earlier, later. split; [|split; assumption].
        rewrite <- Heq. rewrite <- app_assoc. reflexivity.
    + apply ltb_exact_false in Hcmp.
      destruct (IH before (middle ++ [current]) acc) as
        (earlier & later & Heq & Hearlier & Hlater).
      * exact Hbefore.
      * intros v Hv. apply in_app_or in Hv. destruct Hv as [Hv|[<-|[]]].
        -- apply Hmiddle. exact Hv.
        -- exact Hcmp.
      * exists earlier, later. split; [|split; assumption].
        rewrite <- Heq. rewrite <- app_assoc. reflexivity.
Qed.

(** X24.  Over the reals the version with the most downloads is the first
    one that reaches the greatest download count: every version before it
    has strictly fewer downloads, every version after it at most as many.
    There is none exactly when there is no version. *)
Theorem versionWithMaxDownloads_first_maximum (versions : list (Version R)) :
  (versionWithMaxDownloads versions = None <-> versions = [])
  /\ forall max,
       versionWithMaxDownloads versions = Some max ->
       exists earlier later,
         versions = earlier ++ max :: later
         /\ (forall v, In v earlier -> rawDownloads v < rawDownloads max)
         /\ (forall v, In v later -> rawDownloads v <= rawDownloads max).
Proof.
  split.
  - destruct versions; cbn; split; intro; congruence.
  - intros max Hmax. destruct versions as [|first rest]; [discriminate|].
    cbn in Hmax. injection Hmax as <-.
    apply (reduce_max_first rest [] [] first); intros v [].
Qed.

End VersionsBarExact.

Section VersionsBarAltText.

Import (notations) String.
Import VersionsBar.

(** X23.  For a non-empty series the bar chart's alt text finds a version
    with the most downloads, which sits at its own index in the list of
    versions; the versions handed to the per-version text are all the
    others, last version first, one entry less than there are versions, and
    the text is empty when there is a single version (in every arithmetic).
    Over the reals no version has more downloads than the chosen one.  In
    binary64, as in the repository's tests: of the downloads
    10, 20, 999, 40 the third version is chosen and the per-version text
    lists v4, v2, v1; of null, 5, undefined the second version is
    chosen, the missing counts being 0. *)
Theorem otherVersions_without_max :
  (forall (num : Type) (N : Number num) (series : list (option num))
          (datapointLabels : list String.string)
          (numberFormatter : num -> String.string),
      series <> [] ->
      let vs := versions series datapointLabels numberFormatter in
      exists max,
        versionWithMaxDownloads vs = Some max
        /\ nth_error vs (index max) = Some max
        /\ otherVersions vs
           = rev (firstn (index max) vs ++ skipn (S (index max)) vs)
        /\ length (otherVersions vs) = length series - 1
        /\ (length series = 1 ->
            forall t, per_version_analysis vs t = String.EmptyString))
  /\ (forall (series : list (option R)) (datapointLabels : list String.string)
             (numberFormatter : R -> String.string) (max : Version R),
        let vs := versions series datapointLabels numberFormatter in
        versionWithMaxDownloads vs = Some max ->
        forall v, In v vs -> (rawDownloads v <= rawDownloads max)%R)
  /\ (let vs := versions [Some 10; Some 20; Some 999; Some 40]%float
                         ["v1"; "v2"; "v3"; "v4"]%string
                         (fun _ => "n"%string) in
      option_map index (versionWithMaxDownloads vs) = Some 2
      /\ map name (otherVersions vs) = ["v4"; "v2"; "v1"]%string
      /\ per_version_analysis vs (fun version downloads => version)
         = "v4, v2, v1"%string)
  /\ (let vs := versions [None; Some 5; None]%float
                         ["v1"; "v2"; "v3"]%string
                         (fun _ => "n"%string) in
      option_map name (versionWithMaxDownloads vs) = Some "v2"%string
      /\ map rawDownloads vs = [0; 5; 0]%float).
Proof.
  split; [|split; [|split]].
  - intros num N series datapointLabels numberFormatter.
    apply otherVersions_structure.
  - intros series datapointLabels numberFormatter max vs Hmax v Hv.
    destruct vs as [|first rest]; [destruct Hv|].
    cbn in Hmax. injection Hmax as <-.
    destruct (reduce_max_first rest [] [] first) as
      (earlier & later & Heq & Hearlier & Hlater);
      [intros w [] | intros w [] |].
    cbn [app] in Heq. rewrite Heq in Hv.
    apply in_app_or in Hv. destruct Hv as [Hv|[<-|Hv]].
    + apply Rlt_le, Hearlier, Hv.
    + apply Rle_refl.
    + apply Hlater, Hv.
  - cbv zeta. repeat split; vm_compute; reflexivity.
  - cbv zeta. repeat split; vm_compute; reflexivity.
Qed.

Lemma otherVersions_without_max_witness :
  (exists max,
      versionWithMaxDownloads
        (versions [Some 10; Some 20; Some 999; Some 40]%float
                  ["v1"; "v2"; "v3"; "v4"]%string (fun _ => "n"%string))
      = Some max
      /\ length (otherVersions
                   (versions [Some 10; Some 20; Some 999; Some 40]%float
                             ["v1"; "v2"; "v3"; "v4"]%string
                             (fun _ => "n"%string)))
         = 3)
  /\ per_version_analysis
       (versions [Some 7]%float ["v1"]%string (fun _ => "n"%string))
       (fun version downloads => version)
     = String.EmptyString.
Proof.
  destruct otherVersions_without_max as [Hstructure _].
  split.
  - destruct (Hstructure float binary64
                         [Some 10; Some 20; Some 999; Some 40]%float
                         ["v1"; "v2"; "v3"; "v4"]%string
                         (fun _ => "n"%string))
      as (max & Hmax & _ & _ & Hcount & _); [discriminate|].
    exists max. split; [exact Hmax | exact Hcount].
  - destruct (Hstructure float binary64 [Some 7]%float ["v1"]%string
                         (fun _ => "n"%string))
      as (max & _ & _ & _ & _ & Hone); [discriminate|].
    apply Hone. reflexivity.
Defined.

End VersionsBarAltText.
